(** * Folder Size Analyzer: the listing order, the scan loop and the size
      formatter of [src/App.tsx] and [src/lib/utils.ts]

    The development embeds three pieces of the front end:
    - [sortItems], the comparator sort of the listing ([App.tsx], 18-26),
      once on values and once on a store of arrays, where the copy that
      [[...itemsToSort]] allocates and the in-place [sort] are visible;
    - [scanFolder], the handler that lists a folder and probes each entry
      ([App.tsx], 28-117), as a state-and-trace computation over an explicit
      description of what the dialog and the file system answer;
    - [formatFileSize] ([utils.ts], 15-21). *)

From stdpp Require Import base gmap list strings pretty sorting.

Local Open Scope Z_scope.

(** ** Data *)

(** [FileSystemItem] of [utils.ts].  [size] is a JavaScript number holding a
    byte count; it is an integer, and the comparator subtracts two of them,
    so it lives in [Z]. *)
Module FileSystemItem.
Record t : Type := mk {
  name : string;
  path : string;
  size : Z;
  isDirectory : bool
}.
End FileSystemItem.

(** The fields of a [DirEntry] of the fs plug-in that the scan reads. *)
Module DirEntry.
Record t : Type := mk {
  name : string;
  isDirectory : bool
}.
End DirEntry.

Global Instance FileSystemItem_eq_dec : EqDecision FileSystemItem.t.
Proof. solve_decision. Defined.

Global Instance DirEntry_eq_dec : EqDecision DirEntry.t.
Proof. solve_decision. Defined.

(** ** [Array.prototype.sort] with a comparator

    The language fixes the result of [sort] for a consistent comparator: the
    elements in ascending comparator order, elements that compare equal
    keeping their relative order (the sort is stable).  Insertion from the
    right computes exactly that list: [x], which stood before the elements
    already placed, moves right only past those that must precede it
    ([comparefn x y > 0]). *)
Section ArraySort.
Context {A : Type} (comparefn : A → A → Z).

Fixpoint sort_insert (x : A) (l : list A) : list A :=
    match l with
    | [] => [x]
    | y :: l' => if 0 <? comparefn x y then y :: sort_insert x l' else x :: l
    end.

Definition Array_sort (l : list A) : list A := foldr sort_insert [] l.
End ArraySort.

(** The comparator of [sortItems]. *)
Definition compareItems (a b : FileSystemItem.t) : Z :=
  if FileSystemItem.isDirectory a && negb (FileSystemItem.isDirectory b) then -1
  else if negb (FileSystemItem.isDirectory a) && FileSystemItem.isDirectory b then 1
  else FileSystemItem.size b - FileSystemItem.size a.

(** [sortItems]: sort a copy of the argument. *)
Definition sortItems (itemsToSort : list FileSystemItem.t) : list FileSystemItem.t :=
  Array_sort compareItems itemsToSort.

(** ** [sortItems] on a store of arrays

    Arrays are objects: a variable holds a reference, and [sort] rewrites the
    array it is called on.  [spread] is the array literal [[...a]], which
    allocates; [sort_in_place] is the method call. *)
Module Heap.
Abbreviation loc := positive.
Abbreviation heap := (gmap positive (list FileSystemItem.t)).

Definition spread (a : loc) (h : heap) : option (loc * heap) :=
    match h !! a with
    | Some xs => let a' := fresh (dom h) in Some (a', <[a' := xs]> h)
    | None => None
    end.

Definition sort_in_place (comparefn : FileSystemItem.t → FileSystemItem.t → Z)
      (a : loc) (h : heap) : option (loc * heap) :=
    match h !! a with
    | Some xs => Some (a, <[a := Array_sort comparefn xs]> h)
    | None => None
    end.

Definition sortItems (itemsToSort : loc) (h : heap) : option (loc * heap) :=
    match spread itemsToSort h with
    | Some (copy, h') => sort_in_place compareItems copy h'
    | None => None
    end.
End Heap.

(** ** The order the comparator induces *)

(** [a] may stand before [b]. *)
Definition item_le (a b : FileSystemItem.t) : Prop := compareItems a b ≤ 0.

(** Same kind and same size: the comparator answers [0]. *)
Definition same_key (a b : FileSystemItem.t) : Prop :=
  FileSystemItem.isDirectory a = FileSystemItem.isDirectory b ∧
  FileSystemItem.size a = FileSystemItem.size b.

Global Instance same_key_dec a b : Decision (same_key a b).
Proof. unfold same_key. apply _. Defined.

Definition is_dir (a : FileSystemItem.t) : Prop := FileSystemItem.isDirectory a = true.
Definition is_file (a : FileSystemItem.t) : Prop := FileSystemItem.isDirectory a = false.
Definition size_desc (a b : FileSystemItem.t) : Prop :=
  FileSystemItem.size b ≤ FileSystemItem.size a.

Global Instance is_dir_dec a : Decision (is_dir a).
Proof. unfold is_dir. apply _. Defined.
Global Instance is_file_dec a : Decision (is_file a).
Proof. unfold is_file. apply _. Defined.


(** ** What the handler sees of the outside

    A promise either resolves or rejects; a rejection carries a value that
    the handler only ever turns into text. *)
Inductive result (A : Type) : Type :=
| Ok (a : A)
| Err (e : string).
Arguments Ok {A} a.
Arguments Err {A} e.

(** The answers of the dialog, the fs plug-in and the path API during one
    invocation, and what the abort signal of this invocation reads at the
    check that opens the loop iteration for entry number [i].  Nothing in the
    handler sets its own signal: it turns true when a later invocation,
    started while this one waits, aborts the controller it finds in
    [abortControllerRef]. *)
Module Tauri.
Record t : Type := mk {
  open : result (option string);
  readDir : string → result (list DirEntry.t);
  join : string → string → result string;
  size : string → result Z;
  new_AbortController : nat;
  signal_aborted : nat → bool
}.
End Tauri.

(** The component state ([useState] and [useRef] of [App]). *)
Record AppState : Type := mkAppState {
  items : list FileSystemItem.t;
  isLoading : bool;
  selectedFolder : option string;
  error : option string;
  scannedCount : nat;
  abortControllerRef : option nat
}.

(** Calls that leave the handler, in the order they are made. *)
Inductive event : Type :=
| CallAbort (controller : nat)
| CallOpen
| CallReadDir (dir : string)
| CallJoin (dir name : string)
| CallSize (fullPath : string)
| ConsoleError (args : list string).

Global Instance event_eq_dec : EqDecision event.
Proof. solve_decision. Defined.

Record Sys : Type := mkSys {
  appState : AppState;
  trace : list event
}.

(** How a block of statements ends: it falls through with a value, executes
    [return], or throws. *)
Inductive outcome (A : Type) : Type :=
| Normal (a : A)
| Returned
| Thrown (e : string).
Arguments Normal {A} a.
Arguments Returned {A}.
Arguments Thrown {A} e.

Definition M (A : Type) : Type := Sys → outcome A * Sys.

Definition ret {A} (a : A) : M A := λ s, (Normal a, s).

Definition bind {A B} (m : M A) (k : A → M B) : M B := λ s,
  match m s with
  | (Normal a, s') => k a s'
  | (Returned, s') => (Returned, s')
  | (Thrown e, s') => (Thrown e, s')
  end.

Notation "'let*' x ':=' m 'in' k" := (bind m (λ x, k))
  (at level 10, x binder, m at level 100, k at level 200, only parsing).

Definition return_ {A} : M A := λ s, (Returned, s).

Definition try_catch {A} (body : M A) (handler : string → M A) : M A := λ s,
  match body s with
  | (Thrown e, s') => handler e s'
  | r => r
  end.

Definition emit (e : event) : M unit := λ s,
  (Normal (), mkSys (appState s) (trace s ++ [e])).

(** [await] on an outside call: the call is made, then its promise settles. *)
Definition await {A} (call : event) (r : result A) : M A := λ s,
  match emit call s with
  | (_, s') => match r with Ok a => (Normal a, s') | Err e => (Thrown e, s') end
  end.

Definition modify (f : AppState → AppState) : M unit := λ s,
  (Normal (), mkSys (f (appState s)) (trace s)).

Definition read {A} (f : AppState → A) : M A := λ s, (Normal (f (appState s)), s).

Definition setItems (v : list FileSystemItem.t) : M unit :=
  modify (λ a, mkAppState v (isLoading a) (selectedFolder a) (error a)
                          (scannedCount a) (abortControllerRef a)).
Definition setIsLoading (v : bool) : M unit :=
  modify (λ a, mkAppState (items a) v (selectedFolder a) (error a)
                          (scannedCount a) (abortControllerRef a)).
Definition setSelectedFolder (v : option string) : M unit :=
  modify (λ a, mkAppState (items a) (isLoading a) v (error a)
                          (scannedCount a) (abortControllerRef a)).
Definition setError (v : option string) : M unit :=
  modify (λ a, mkAppState (items a) (isLoading a) (selectedFolder a) v
                          (scannedCount a) (abortControllerRef a)).
Definition setScannedCount (v : nat) : M unit :=
  modify (λ a, mkAppState (items a) (isLoading a) (selectedFolder a) (error a)
                          v (abortControllerRef a)).
Definition set_abortControllerRef (v : option nat) : M unit :=
  modify (λ a, mkAppState (items a) (isLoading a) (selectedFolder a) (error a)
                          (scannedCount a) v).

(** [String.prototype.startsWith]. *)
Fixpoint startsWith (s searchString : string) : bool :=
  match searchString, s with
  | EmptyString, _ => true
  | String c search', String d s' => if decide (c = d) then startsWith s' search' else false
  | String _ _, EmptyString => false
  end.

(** ** [scanFolder]

    Arrays are values here.  The only array the handler shares is
    [newItems], and it hands it out through [sortItems] only, which copies
    (see [Heap.sortItems]): a listing given to [setItems] is never the array
    the loop goes on pushing to. *)

Definition BATCH_SIZE : nat := 50.

(** The variables of the loop. *)
Record Locals : Type := mkLocals {
  newItems : list FileSystemItem.t;
  processedCount : nat;
  failedCount : nat
}.

Definition metadata_error : string :=
  "Couldn't read item metadata. Check permissions or path construction. If this persists, ensure the app can access your Desktop paths.".

(** The body of the inner [try] for one entry, and its [catch]. *)
Definition probe_entry (w : Tauri.t) (selected : string) (total : nat)
    (entry : DirEntry.t) (loc : Locals) : M Locals :=
  try_catch
    (let* fullPath := await (CallJoin selected (DirEntry.name entry))
                            (Tauri.join w selected (DirEntry.name entry)) in
     let* itemSize := await (CallSize fullPath) (Tauri.size w fullPath) in
     let newItems' :=
       newItems loc ++ [FileSystemItem.mk (DirEntry.name entry) fullPath itemSize
                                          (DirEntry.isDirectory entry)] in
     let processedCount' := S (processedCount loc) in
     let* _ := setScannedCount processedCount' in
     let* _ :=
       if ((processedCount' mod BATCH_SIZE)%nat =? 0)%nat || (processedCount' =? total)%nat
       then setItems (sortItems newItems')
       else ret () in
     ret (mkLocals newItems' processedCount' (failedCount loc)))
    (λ err,
     let failedCount' := S (failedCount loc) in
     let* _ := emit (ConsoleError ["Error reading " +:+ DirEntry.name entry +:+ ":"; err]) in
     ret (mkLocals (newItems loc) (processedCount loc) failedCount')).

(** The [for ... of] loop; [i] numbers the entry at the head of [entries]
    and [total] is [entries.length] of the whole listing. *)
Fixpoint scan_entries (w : Tauri.t) (selected : string) (total i : nat)
    (entries : list DirEntry.t) (loc : Locals) : M Locals :=
  match entries with
  | [] => ret loc
  | entry :: rest =>
    if Tauri.signal_aborted w i then return_
    else if startsWith (DirEntry.name entry) "." then
      scan_entries w selected total (S i) rest loc
    else
      let* loc' := probe_entry w selected total entry loc in
      scan_entries w selected total (S i) rest loc'
  end.

(** [!selected || typeof selected !== "string"]: the dialog was dismissed
    ([null]) or gave the empty string. *)
Definition no_selection (selected : option string) : bool :=
  match selected with
  | None => true
  | Some p => bool_decide (p = "")
  end.

Definition scanFolder (w : Tauri.t) : M unit :=
  try_catch
    (let* _ := setError None in
     let* current := read abortControllerRef in
     let* _ := match current with Some c => emit (CallAbort c) | None => ret () end in
     let* selected := await CallOpen (Tauri.open w) in
     match selected with
     | None => return_
     | Some selected =>
       if no_selection (Some selected) then return_ else
       let* _ := setSelectedFolder (Some selected) in
       let* _ := setIsLoading true in
       let* _ := setItems [] in
       let* _ := setScannedCount 0 in
       let* _ := set_abortControllerRef (Some (Tauri.new_AbortController w)) in
       let* entries := await (CallReadDir selected) (Tauri.readDir w selected) in
       let* loc := scan_entries w selected (length entries) 0 entries (mkLocals [] 0 0) in
       let* _ := setItems (sortItems (newItems loc)) in
       let* _ :=
         if (0 <? length entries)%nat && (length (newItems loc) =? 0)%nat
            && (failedCount loc =? length entries)%nat
         then setError (Some metadata_error)
         else ret () in
       let* _ := setIsLoading false in
       set_abortControllerRef None
     end)
    (λ err,
     let* _ := setError (Some ("Failed to scan folder: " +:+ err)) in
     let* _ := setIsLoading false in
     let* _ := set_abortControllerRef None in
     emit (ConsoleError [err])).

(** ** [formatFileSize]

    The argument is a byte count, an integer.  Dividing it by a power of two
    is exact in floating point, so the value handed to [toFixed] is the
    rational [bytes / 1024^k] and the digits below are the digits the
    language prescribes for it. *)
Section NumberToString.
(** Numbers of magnitude [10^21] and more are written in exponent notation
    (["1e+21"]), with the shortest digits that read back as the same double.
    No byte count a file system reports comes near; the rendering of
    [num / den] in that range is left open. *)
Variable exponential : Z → Z → string.

(** [Number::toString], which a template literal applies to a number. *)
Definition Number_toString (x : Z) : string :=
  if Z.abs x <? 10 ^ 21 then pretty x
  else (if x <? 0 then "-" else "") +:+ exponential (Z.abs x) 1.

Fixpoint zeros (n : nat) : string :=
  match n with
  | O => ""
  | S n' => "0" +:+ zeros n'
  end.

(** [(num / den).toFixed(2)] for [den > 0]: the sign, then the integer [n]
    nearest to [100 * |num| / den] (the larger one of two equally near),
    padded to three digits and split before the last two. *)
Definition toFixed2 (num den : Z) : string :=
  let s := if num <? 0 then "-" else "" in
  let x := Z.abs num in
  let m :=
    if 10 ^ 21 * den <=? x then exponential x den
    else
      let n := (200 * x + den) `div` (2 * den) in
      let m := if n =? 0 then "0" else pretty n in
      let k := String.length m in
      let m := if (k <=? 2)%nat then zeros (3 - k) +:+ m else m in
      let k := String.length m in
      String.substring 0 (k - 2) m +:+ "." +:+ String.substring (k - 2) 2 m in
  s +:+ m.

Definition formatFileSize (bytes : Z) : string :=
  if bytes =? 0 then "0 Bytes"
  else if bytes <? 1024 then Number_toString bytes +:+ " Bytes"
  else if bytes <? 1024 ^ 2 then toFixed2 bytes 1024 +:+ " KB"
  else if bytes <? 1024 ^ 3 then toFixed2 bytes (1024 ^ 2) +:+ " MB"
  else toFixed2 bytes (1024 ^ 3) +:+ " GB".
End NumberToString.

(** ** Vocabulary of the statements *)

(** The listing order with the name as a last key: directories first, then
    larger sizes first, then names ascending. *)
Definition by_kind_size_name (a b : FileSystemItem.t) : Prop :=
  item_le a b ∧
  (same_key a b → String.leb (FileSystemItem.name a) (FileSystemItem.name b) = true).

(** Two files of one size. *)
Definition file_b : FileSystemItem.t := FileSystemItem.mk "b.txt" "/d/b.txt" 10 false.
Definition file_a : FileSystemItem.t := FileSystemItem.mk "a.txt" "/d/a.txt" 10 false.

(** What the scan does with one entry, read off the answers of the file
    system: the item it yields, the calls it makes, the failure it counts. *)
Definition hidden (entry : DirEntry.t) : bool := startsWith (DirEntry.name entry) ".".

Definition probe (w : Tauri.t) (selected : string) (entry : DirEntry.t) :
    result FileSystemItem.t :=
  match Tauri.join w selected (DirEntry.name entry) with
  | Err e => Err e
  | Ok fullPath =>
    match Tauri.size w fullPath with
    | Err e => Err e
    | Ok itemSize =>
      Ok (FileSystemItem.mk (DirEntry.name entry) fullPath itemSize (DirEntry.isDirectory entry))
    end
  end.

Definition readable (w : Tauri.t) (selected : string) (entry : DirEntry.t) : bool :=
  match probe w selected entry with Ok _ => true | Err _ => false end.

Definition console_line (entry : DirEntry.t) (err : string) : event :=
  ConsoleError ["Error reading " +:+ DirEntry.name entry +:+ ":"; err].

Definition probe_events (w : Tauri.t) (selected : string) (entry : DirEntry.t) : list event :=
  CallJoin selected (DirEntry.name entry) ::
  match Tauri.join w selected (DirEntry.name entry) with
  | Err e => [console_line entry e]
  | Ok fullPath =>
    CallSize fullPath ::
    match Tauri.size w fullPath with
    | Err e => [console_line entry e]
    | Ok _ => []
    end
  end.

Definition entry_events (w : Tauri.t) (selected : string) (entry : DirEntry.t) : list event :=
  if hidden entry then [] else probe_events w selected entry.

Definition entry_items (w : Tauri.t) (selected : string) (entry : DirEntry.t) :
    list FileSystemItem.t :=
  if hidden entry then []
  else match probe w selected entry with Ok it => [it] | Err _ => [] end.

Definition entry_failures (w : Tauri.t) (selected : string) (entry : DirEntry.t) : nat :=
  if hidden entry then 0%nat
  else match probe w selected entry with Ok _ => 0%nat | Err _ => 1%nat end.

Definition listed_items (w : Tauri.t) (selected : string) (entries : list DirEntry.t) :
    list FileSystemItem.t :=
  flat_map (entry_items w selected) entries.

Definition failures (w : Tauri.t) (selected : string) (entries : list DirEntry.t) : nat :=
  sum_list (map (entry_failures w selected) entries).

Definition scan_events (w : Tauri.t) (selected : string) (entries : list DirEntry.t) :
    list event :=
  flat_map (entry_events w selected) entries.

(** The calls made before the listing is read. *)
Definition prologue_events (a : AppState) : list event :=
  match abortControllerRef a with Some c => [CallAbort c] | None => [] end ++ [CallOpen].

(** The component state after item number [processedCount'] was pushed. *)
Definition after_push (total processedCount' : nat) (newItems' : list FileSystemItem.t)
    (a : AppState) : AppState :=
  mkAppState
    (if ((processedCount' mod BATCH_SIZE)%nat =? 0)%nat || (processedCount' =? total)%nat
     then sortItems newItems' else items a)
    (isLoading a) (selectedFolder a) (error a) processedCount' (abortControllerRef a).

(** The signal is not aborted at the checks for entries [i], ..., [i + n - 1]. *)
Definition not_aborted (w : Tauri.t) (i n : nat) : Prop :=
  ∀ j, (j < n)%nat → Tauri.signal_aborted w (i + j) = false.

(** The guard of the metadata message, on the numbers the loop ends with. *)
Definition nothing_readable (w : Tauri.t) (selected : string) (entries : list DirEntry.t) : bool :=
  (0 <? length entries)%nat && (length (listed_items w selected entries) =? 0)%nat
  && (failures w selected entries =? length entries)%nat.

Definition scan_failed_message (err : string) : string := "Failed to scan folder: " +:+ err.

Definition is_console_error (ev : event) : bool :=
  match ev with ConsoleError _ => true | _ => false end.

Definition visible (entry : DirEntry.t) : Prop := hidden entry = false.

Global Instance visible_dec entry : Decision (visible entry).
Proof. unfold visible. apply _. Defined.

(** The same answers with another listing, or another signal. *)
Definition with_listing (w : Tauri.t) (entries : list DirEntry.t) : Tauri.t :=
  Tauri.mk (Tauri.open w) (λ _, Ok entries) (Tauri.join w) (Tauri.size w)
           (Tauri.new_AbortController w) (Tauri.signal_aborted w).

Definition with_signal (w : Tauri.t) (signal : nat → bool) : Tauri.t :=
  Tauri.mk (Tauri.open w) (Tauri.readDir w) (Tauri.join w) (Tauri.size w)
           (Tauri.new_AbortController w) signal.

(** ** Sample folders *)

Definition sample_entries : list DirEntry.t :=
  [DirEntry.mk "a.txt" false; DirEntry.mk ".DS_Store" false;
   DirEntry.mk "sub" true; DirEntry.mk "locked" false].

Definition sample_size (fullPath : string) : result Z :=
  if decide (fullPath = "/d/locked") then Err "permission denied"
  else if decide (fullPath = "/d/sub") then Ok 4096
  else Ok 100.

(** A folder ["/d"] with a file, a dotfile, a directory and a file whose
    size cannot be read; the signal is never aborted. *)
Definition sample_world : Tauri.t :=
  Tauri.mk (Ok (Some "/d")) (λ _, Ok sample_entries) (λ dir name, Ok (dir +:+ "/" +:+ name))
           sample_size 1%nat (λ _, false).

(** The same folder, listed as one readable file, and as a readable and an
    unreadable file. *)
Definition one_file_world : Tauri.t := with_listing sample_world [DirEntry.mk "a.txt" false].
Definition mixed_world : Tauri.t :=
  with_listing sample_world [DirEntry.mk "a.txt" false; DirEntry.mk "locked" false].

(** The same folder when a later invocation aborts the scan while the second
    entry is being handled. *)
Definition cancelled_world : Tauri.t := with_signal sample_world (λ i, bool_decide (2 ≤ i)%nat).

(** A folder that cannot be listed. *)
Definition unreadable_root_world : Tauri.t :=
  Tauri.mk (Ok (Some "/d")) (λ _, Err "forbidden path") (λ dir name, Ok (dir +:+ "/" +:+ name))
           sample_size 1%nat (λ _, false).

(** The component as it is mounted, and with a listing left by an earlier
    scan. *)
Definition mounted : Sys := mkSys (mkAppState [] false None None 0 None) [].
Definition after_earlier_scan : Sys :=
  mkSys (mkAppState [file_b; file_a] false (Some "/old") None 2 None) [].

(** ** [handleReveal]

    The opener plug-in answers through [revealItemInDir]; its call is not a
    call of the scan and is not entered in the trace. *)
Definition settle {A} (r : result A) : M A := λ s,
  match r with Ok a => (Normal a, s) | Err e => (Thrown e, s) end.

Definition reveal_failed_message (err : string) : string := "Failed to reveal item: " +:+ err.

Definition handleReveal (revealItemInDir : string → result ()) (path : string) : M unit :=
  try_catch
    (settle (revealItemInDir path))
    (λ err,
     let* _ := setError (Some ("Failed to reveal item: " +:+ err)) in
     emit (ConsoleError [err])).

(** ** What [App] renders

    The element tree of [App], as far as it depends on the state: the
    button, the error box, the line of the selected folder, the listing with
    its header and rows, and the message of the empty folder.  A string or
    [null] in front of [&&] shows what follows only when it is a non-empty
    string. *)
Inductive Icon : Type := Loader2 | Upload | Folder | File.

Record Row : Type := mkRow {
  row_key : string;
  row_icon : Icon;
  row_name : string;
  row_size : string;
  row_onDoubleClick : string
}.

Record View : Type := mkView {
  button_disabled : bool;
  button_icon : Icon;
  button_label : string;
  error_box : option string;
  selected_line : option string;
  listing : option (string * list Row);
  empty_message : bool
}.

Definition truthy (v : option string) : bool :=
  match v with
  | Some text => negb (bool_decide (text = ""))
  | None => false
  end.

Section Render.
Variable exponential : Z → Z → string.

(** One row of [items.map((item, index) => ...)]; [row_onDoubleClick] is the
    path the handler of the row passes to [handleReveal]. *)
Definition render_row (index : nat) (item : FileSystemItem.t) : Row :=
  mkRow (FileSystemItem.path item +:+ "-" +:+ Number_toString exponential (Z.of_nat index))
        (if FileSystemItem.isDirectory item then Folder else File)
        (FileSystemItem.name item)
        (formatFileSize exponential (FileSystemItem.size item))
        (FileSystemItem.path item).

Definition render (a : AppState) : View :=
  mkView
    (isLoading a)
    (if isLoading a then Loader2 else Upload)
    (if isLoading a
     then "Scanning... (" +:+ Number_toString exponential (Z.of_nat (scannedCount a)) +:+ " items)"
     else "Select Folder")
    (if truthy (error a) then error a else None)
    (if truthy (selectedFolder a) then selectedFolder a else None)
    (if (0 <? length (items a))%nat
     then Some (Number_toString exponential (Z.of_nat (length (items a))) +:+ " items found",
                imap render_row (items a))
     else None)
    (negb (isLoading a) && negb (truthy (error a)) && (length (items a) =? 0)%nat
     && truthy (selectedFolder a)).

(** The states the component reaches when every handler finishes before the
    next one starts: a click on the button needs the button enabled, a
    double click needs a row. *)
Inductive reachable : Sys → Prop :=
| reachable_mounted : reachable mounted
| reachable_scanFolder w s :
    reachable s →
    button_disabled (render (appState s)) = false →
    reachable (scanFolder w s).2
| reachable_handleReveal revealItemInDir header rows row s :
    reachable s →
    listing (render (appState s)) = Some (header, rows) →
    row ∈ rows →
    reachable (handleReveal revealItemInDir (row_onDoubleClick row) s).2.
End Render.

(** ** More vocabulary *)

(** The names handed to [join], and the paths handed to [size], in the order
    of the calls. *)
Definition joined_names (t : list event) : list string :=
  flat_map (λ ev, match ev with CallJoin _ name => [name] | _ => [] end) t.

Definition sized_paths (t : list event) : list string :=
  flat_map (λ ev, match ev with CallSize fullPath => [fullPath] | _ => [] end) t.

Definition joined_path (w : Tauri.t) (selected : string) (entry : DirEntry.t) : list string :=
  match Tauri.join w selected (DirEntry.name entry) with Ok fullPath => [fullPath] | Err _ => [] end.

Definition is_abort (ev : event) : bool :=
  match ev with CallAbort _ => true | _ => false end.

(** The number written by [toFixed(2)], in hundredths. *)
Definition hundredths (num den : Z) : Z := (200 * Z.abs num + den) `div` (2 * den).

Definition digit (d : N) : string := String (pretty_N_char d) "".

Definition two_decimals (n : N) : string :=
  pretty (n `div` 100)%N +:+ "." +:+ digit ((n `div` 10) `mod` 10)%N +:+ digit (n `mod` 10)%N.

Fixpoint has_dash (s : string) : bool :=
  match s with
  | EmptyString => false
  | String c s' => bool_decide (String c "" = "-") || has_dash s'
  end.

(** What the comparator reads of an item. *)
Definition item_key (a : FileSystemItem.t) : bool * Z :=
  (FileSystemItem.isDirectory a, FileSystemItem.size a).

Definition sized (name : string) (size : Z) (isDirectory : bool) : FileSystemItem.t :=
  FileSystemItem.mk name ("/d/" +:+ name) size isDirectory.

(** How many of the items read so far the listing on screen holds while the
    loop runs: all of them when the last entry of the listing was just
    pushed, the whole batches otherwise. *)
Definition displayed_count (total processedCount : nat) : nat :=
  if (processedCount =? total)%nat then processedCount
  else (BATCH_SIZE * (processedCount / BATCH_SIZE))%nat.

(** Worlds for the dialog, and a folder of sixty files whose scan is aborted
    at the check before the fifty-sixth. *)
Definition dismissed_world : Tauri.t :=
  Tauri.mk (Ok None) (Tauri.readDir sample_world) (Tauri.join sample_world)
           (Tauri.size sample_world) 2%nat (λ _, false).

Definition no_dialog_world : Tauri.t :=
  Tauri.mk (Err "no dialog") (Tauri.readDir sample_world) (Tauri.join sample_world)
           (Tauri.size sample_world) 2%nat (λ _, false).

Definition sixty_files_world : Tauri.t :=
  Tauri.mk (Ok (Some "/d")) (λ _, Ok (replicate 60 (DirEntry.mk "f" false)))
           (λ dir name, Ok (dir +:+ "/" +:+ name)) (λ _, Ok 7) 3%nat
           (λ i, bool_decide (55 ≤ i)%nat).

(** ** Lemmas on the sort *)

Section ArraySortFacts.
Context {A : Type} (comparefn : A → A → Z).

Lemma sort_insert_Permutation x l : sort_insert comparefn x l ≡ₚ x :: l.
Proof.
    induction l as [|y l IH]; simpl; [done|].
    destruct (0 <? comparefn x y); [|done].
    rewrite IH. apply Permutation_swap.
Qed.

Lemma Array_sort_Permutation l : Array_sort comparefn l ≡ₚ l.
Proof.
    induction l as [|x l IH]; simpl; [done|].
    rewrite sort_insert_Permutation. by f_equiv.
Qed.

Lemma Array_sort_length l : length (Array_sort comparefn l) = length l.
Proof. by rewrite Array_sort_Permutation. Qed.

  (** Consistency of the comparator, as far as the proofs need it. *)
Hypothesis cmp_trans : ∀ a b c, comparefn a b ≤ 0 → comparefn b c ≤ 0 → comparefn a c ≤ 0.
Hypothesis cmp_total : ∀ a b, 0 < comparefn a b → comparefn b a ≤ 0.

Let le (a b : A) : Prop := comparefn a b ≤ 0.

Lemma sort_insert_sorted x l :
    StronglySorted le l → StronglySorted le (sort_insert comparefn x l).
Proof.
    induction 1 as [|y l Hl IH Hy]; simpl.
    - repeat constructor.
    - destruct (Z.ltb_spec 0 (comparefn x y)) as [Hlt|Hge].
      + constructor; [done|].
        rewrite sort_insert_Permutation. constructor; [|done].
        by apply cmp_total.
      + constructor; [by constructor|].
        constructor; [done|].
        eapply Forall_impl; [exact Hy|]. intros z Hz. by eapply cmp_trans.
Qed.

Lemma Array_sort_sorted l : StronglySorted le (Array_sort comparefn l).
Proof.
    induction l as [|x l IH]; simpl; [constructor|].
    by apply sort_insert_sorted.
Qed.

  (** A sorted array is a fixed point: nothing moves. *)
Lemma Array_sort_fixed l : StronglySorted le l → Array_sort comparefn l = l.
Proof.
    induction 1 as [|x l Hl IH Hx]; simpl; [done|].
    rewrite IH. destruct Hx as [|y l' Hxy _]; simpl; [done|].
    destruct (Z.ltb_spec 0 (comparefn x y)); [unfold le in Hxy; lia|done].
Qed.

Lemma Array_sort_idempotent l :
    Array_sort comparefn (Array_sort comparefn l) = Array_sort comparefn l.
Proof. apply Array_sort_fixed, Array_sort_sorted. Qed.

  (** Stability: a class [P] of elements that compare equal to each other
      comes out in the order it went in. *)
Context (P : A → Prop) `{!∀ a, Decision (P a)}.
Hypothesis P_ties : ∀ a b, P a → P b → comparefn a b = 0.

Lemma sort_insert_filter x l :
    filter P (sort_insert comparefn x l) = filter P (x :: l).
Proof.
    induction l as [|y l IH]; simpl; [done|].
    destruct (Z.ltb_spec 0 (comparefn x y)) as [Hlt|Hge]; [|done].
    rewrite filter_cons, IH, !filter_cons.
    destruct (decide (P y)) as [Hy|Hy], (decide (P x)) as [Hx|Hx]; try done.
    specialize (P_ties x y Hx Hy). lia.
Qed.

Lemma Array_sort_filter l : filter P (Array_sort comparefn l) = filter P l.
Proof.
    induction l as [|x l IH]; simpl; [done|].
    by rewrite sort_insert_filter, !filter_cons, IH.
Qed.
End ArraySortFacts.

(** ** The comparator of [sortItems] is consistent *)

Lemma compareItems_trans a b c :
  compareItems a b ≤ 0 → compareItems b c ≤ 0 → compareItems a c ≤ 0.
Proof.
  unfold compareItems.
  destruct (FileSystemItem.isDirectory a), (FileSystemItem.isDirectory b),
    (FileSystemItem.isDirectory c); simpl; lia.
Qed.

Lemma compareItems_total a b : 0 < compareItems a b → compareItems b a ≤ 0.
Proof.
  unfold compareItems.
  destruct (FileSystemItem.isDirectory a), (FileSystemItem.isDirectory b); simpl; lia.
Qed.

Lemma compareItems_same_key k a b : same_key k a → same_key k b → compareItems a b = 0.
Proof.
  unfold same_key, compareItems. intros [<- <-] [Hd <-]. rewrite <- Hd.
  destruct (FileSystemItem.isDirectory k); simpl; lia.
Qed.

Lemma sortItems_sorted xs : StronglySorted item_le (sortItems xs).
Proof. apply Array_sort_sorted; [apply compareItems_trans|apply compareItems_total]. Qed.

Lemma sortItems_Permutation xs : sortItems xs ≡ₚ xs.
Proof. apply Array_sort_Permutation. Qed.

Lemma sortItems_fixed xs : StronglySorted item_le xs → sortItems xs = xs.
Proof. apply Array_sort_fixed. Qed.

Lemma sortItems_stable k xs : filter (same_key k) (sortItems xs) = filter (same_key k) xs.
Proof. apply Array_sort_filter, compareItems_same_key. Qed.

(** A list in comparator order is its directories, largest first, followed
    by its files, largest first. *)
Lemma item_le_sorted_split l :
  StronglySorted item_le l →
  l = filter is_dir l ++ filter is_file l ∧
  StronglySorted size_desc (filter is_dir l) ∧
  StronglySorted size_desc (filter is_file l).
Proof.
  induction 1 as [|x l Hl (Heq & Hd & Hf) Hx]; [by repeat constructor|].
  assert (Hsz : ∀ (P : FileSystemItem.t → Prop) `{!∀ a, Decision (P a)},
             (∀ y, P y → FileSystemItem.isDirectory y = FileSystemItem.isDirectory x) →
             Forall (size_desc x) (filter P l)).
  { intros P ? HP. apply Forall_forall. intros y [Hy Hin]%list_elem_of_filter.
    rewrite Forall_forall in Hx. specialize (Hx y Hin). specialize (HP y Hy).
    unfold item_le, compareItems in Hx. unfold size_desc. rewrite HP in Hx.
    destruct (FileSystemItem.isDirectory x); simpl in Hx; lia. }
  rewrite !filter_cons.
  destruct (decide (is_dir x)) as [Hdx|Hfx].
  - rewrite decide_False by (unfold is_file; congruence).
    split_and!; [simpl; congruence| |done].
    constructor; [done|]. apply Hsz. unfold is_dir in *. congruence.
  - apply not_true_is_false in Hfx. rewrite decide_True by done.
    assert (Hall : Forall is_file l).
    { eapply Forall_impl; [exact Hx|]. intros y Hy.
      unfold item_le, compareItems in Hy. unfold is_file. rewrite Hfx in Hy.
      destruct (FileSystemItem.isDirectory y); simpl in Hy; [lia|done]. }
    assert (filter is_dir l = []) as Hnil.
    { clear -Hall. induction Hall as [|y l Hy _ IH]; [done|].
      rewrite filter_cons, decide_False; [done|]. unfold is_file, is_dir in *. congruence. }
    rewrite Hnil in *. simpl in *.
    split_and!; [congruence|constructor|].
    constructor; [done|]. apply Hsz. unfold is_file. congruence.
Qed.

(** ** The listing order *)

(** C1. For every list of items, [sortItems] returns the directories of
    the list followed by its non-directories; each of the two groups is in
    non-increasing order of size, and a directory stands before a file
    whatever their sizes. *)
Theorem sortItems_directories_first_size_descending (xs : list FileSystemItem.t) :
  ∃ ds fs,
    sortItems xs = ds ++ fs ∧
    Forall is_dir ds ∧ Forall is_file fs ∧
    ds ≡ₚ filter is_dir xs ∧ fs ≡ₚ filter is_file xs ∧
    StronglySorted size_desc ds ∧ StronglySorted size_desc fs.
Proof.
  destruct (item_le_sorted_split _ (sortItems_sorted xs)) as (Heq & Hd & Hf).
  exists (filter is_dir (sortItems xs)), (filter is_file (sortItems xs)).
  assert (Forall is_dir (filter is_dir (sortItems xs))) as Hds.
  { apply Forall_forall. by intros y [? _]%list_elem_of_filter. }
  assert (Forall is_file (filter is_file (sortItems xs))) as Hfs.
  { apply Forall_forall. by intros y [? _]%list_elem_of_filter. }
  split_and!; try done.
  - by rewrite sortItems_Permutation.
  - by rewrite sortItems_Permutation.
Qed.

(** Two lists in comparator order whose ties are in the same order are the
    same list. *)
Lemma item_le_antisym a b : item_le a b → item_le b a → same_key a b.
Proof.
  unfold item_le, compareItems, same_key.
  destruct (FileSystemItem.isDirectory a), (FileSystemItem.isDirectory b); simpl;
    intros; split; try done; lia.
Qed.

Lemma sorted_stable_unique ys zs :
  StronglySorted item_le ys → StronglySorted item_le zs →
  (∀ k, filter (same_key k) ys = filter (same_key k) zs) →
  ys = zs.
Proof.
  intros Hys. revert zs.
  induction Hys as [|y ys Hys IH Hy]; intros zs Hzs Hk.
  - destruct zs as [|z zs]; [done|].
    specialize (Hk z). rewrite filter_nil, filter_cons_True in Hk by done. done.
  - destruct Hzs as [|z zs Hzs Hz].
    { specialize (Hk y). rewrite filter_cons_True in Hk by done. done. }
    assert (z ∈ y :: ys) as Hzin.
    { pose proof (Hk z) as Hkz. rewrite (filter_cons_True _ z zs) in Hkz by done.
      assert (z ∈ filter (same_key z) (y :: ys)) as Hin by (rewrite Hkz; left).
      by apply list_elem_of_filter in Hin as [_ ?]. }
    assert (y ∈ z :: zs) as Hyin.
    { pose proof (Hk y) as Hky. rewrite (filter_cons_True _ y ys) in Hky by done.
      assert (y ∈ filter (same_key y) (z :: zs)) as Hin by (rewrite <- Hky; left).
      by apply list_elem_of_filter in Hin as [_ ?]. }
    assert (same_key y z) as Hyz.
    { apply elem_of_cons in Hzin as [->|Hzin]; [done|].
      apply elem_of_cons in Hyin as [->|Hyin]; [done|].
      rewrite Forall_forall in Hy, Hz. apply item_le_antisym; auto. }
    assert (y = z) as <-.
    { specialize (Hk y). rewrite !filter_cons_True in Hk by done. congruence. }
    f_equal. apply IH; [done|]. intros k. specialize (Hk k).
    rewrite !filter_cons in Hk. destruct (decide (same_key k y)); congruence.
Qed.

(** C7. On the code the tie between two entries of one kind and one size
    is not broken by name: the comparator never reads a name.  The listing
    is in comparator order, entries that tie keep the order they had in the
    input, and these two facts fix the output. *)
Theorem sortItems_ties_keep_input_order (xs : list FileSystemItem.t) :
  StronglySorted item_le (sortItems xs) ∧
  (∀ k, filter (same_key k) (sortItems xs) = filter (same_key k) xs) ∧
  (∀ ys, StronglySorted item_le ys →
         (∀ k, filter (same_key k) ys = filter (same_key k) xs) →
         ys = sortItems xs).
Proof.
  split_and!.
  - apply sortItems_sorted.
  - intros k. apply sortItems_stable.
  - intros ys Hys Hk. apply sorted_stable_unique; [done|apply sortItems_sorted|].
    intros k. by rewrite sortItems_stable.
Qed.

Lemma sortItems_ties_keep_input_order_witness :
  StronglySorted item_le [file_b; file_a] ∧
  (∀ k, filter (same_key k) [file_b; file_a] = filter (same_key k) [file_b; file_a]) ∧
  [file_b; file_a] = sortItems [file_b; file_a].
Proof.
  assert (StronglySorted item_le [file_b; file_a]) as Hs.
  { repeat constructor; unfold item_le; vm_compute; discriminate. }
  split_and!; [exact Hs|done|].
  apply (sortItems_ties_keep_input_order [file_b; file_a]); [exact Hs|done].
Defined.

(** C7, as the claim states it, fails: two files of one size come out in the
    order they went in, here ["b.txt"] before ["a.txt"], and the same two
    files given in the other order come out in the other order. *)
Lemma sortItems_ties_not_by_name :
  sortItems [file_b; file_a] = [file_b; file_a] ∧
  ¬ StronglySorted by_kind_size_name (sortItems [file_b; file_a]) ∧
  [file_b; file_a] ≡ₚ [file_a; file_b] ∧
  sortItems [file_b; file_a] ≠ sortItems [file_a; file_b].
Proof.
  split_and!.
  - reflexivity.
  - intros Hs. apply StronglySorted_inv in Hs as [_ Hhd].
    apply Forall_cons in Hhd as [[_ Hname] _].
    assert (same_key file_b file_a) as Hk by done.
    apply Hname in Hk. vm_compute in Hk. discriminate.
  - apply Permutation_swap.
  - vm_compute. discriminate.
Qed.

(** ** [sortItems] and the store *)

(** C9. [sortItems] leaves its argument as it was: the array it is given,
    and every other array of the store, holds the same elements afterwards;
    the result is a reference that was not allocated before, and the array
    behind it is a permutation of the argument. *)
Theorem Heap_sortItems_fresh_permutation
    (h : gmap positive (list FileSystemItem.t)) (a : positive) (xs : list FileSystemItem.t) :
  h !! a = Some xs →
  ∃ r h',
    Heap.sortItems a h = Some (r, h') ∧
    (r ∉ dom h) ∧ r ≠ a ∧
    h' !! a = Some xs ∧
    (∀ l, l ≠ r → h' !! l = h !! l) ∧
    h' !! r = Some (sortItems xs) ∧
    sortItems xs ≡ₚ xs.
Proof.
  intros Ha.
  pose proof (is_fresh (dom h)) as Hfresh.
  assert (fresh (dom h) ≠ a) as Hne.
  { intros Heq. apply Hfresh. rewrite Heq. apply elem_of_dom. eauto. }
  exists (fresh (dom h)), (<[fresh (dom h) := sortItems xs]> h).
  split_and!.
  - unfold Heap.sortItems, Heap.spread, Heap.sort_in_place. rewrite Ha.
    rewrite lookup_insert_eq. by rewrite insert_insert_eq.
  - done.
  - done.
  - by rewrite lookup_insert_ne.
  - intros l Hl. by rewrite lookup_insert_ne.
  - by rewrite lookup_insert_eq.
  - apply sortItems_Permutation.
Qed.

Lemma Heap_sortItems_fresh_permutation_witness :
  ∃ r h',
    Heap.sortItems 1%positive {[ 1%positive := [file_a; file_b] ]} = Some (r, h') ∧
    (r ∉ dom ({[ 1%positive := [file_a; file_b] ]} : gmap positive (list FileSystemItem.t))) ∧
    r ≠ 1%positive ∧
    h' !! 1%positive = Some [file_a; file_b] ∧
    (∀ l, l ≠ r → h' !! l = ({[ 1%positive := [file_a; file_b] ]} : gmap positive (list FileSystemItem.t)) !! l) ∧
    h' !! r = Some (sortItems [file_a; file_b]) ∧
    sortItems [file_a; file_b] ≡ₚ [file_a; file_b].
Proof.
  apply (Heap_sortItems_fresh_permutation {[ 1%positive := [file_a; file_b] ]} 1%positive).
  apply lookup_singleton_eq.
Defined.

(** ** The scan loop *)

Lemma probe_entry_run w selected total entry loc sys :
  probe_entry w selected total entry loc sys =
  match probe w selected entry with
  | Ok it =>
    (Normal (mkLocals (newItems loc ++ [it]) (S (processedCount loc)) (failedCount loc)),
     mkSys (after_push total (S (processedCount loc)) (newItems loc ++ [it]) (appState sys))
           (trace sys ++ probe_events w selected entry))
  | Err e =>
    (Normal (mkLocals (newItems loc) (processedCount loc) (S (failedCount loc))),
     mkSys (appState sys) (trace sys ++ probe_events w selected entry))
  end.
Proof.
  unfold probe_entry, probe, probe_events, try_catch, bind, await, emit, console_line.
  destruct (Tauri.join w selected (DirEntry.name entry)) as [fullPath|e]; simpl.
  - destruct (Tauri.size w fullPath) as [itemSize|e]; simpl.
    + unfold after_push.
      destruct ((_ =? 0)%nat || _); simpl; by rewrite <- app_assoc.
    + by rewrite <- !app_assoc.
  - by rewrite <- app_assoc.
Qed.

Lemma not_aborted_cons w i n :
  not_aborted w i (S n) → Tauri.signal_aborted w i = false ∧ not_aborted w (S i) n.
Proof.
  intros H. split.
  - specialize (H 0%nat). rewrite Nat.add_0_r in H. apply H. lia.
  - intros j Hj. specialize (H (S j)). rewrite Nat.add_succ_r in H. apply H. lia.
Qed.

Lemma entry_hidden w selected entry :
  hidden entry = true →
  entry_items w selected entry = [] ∧ entry_failures w selected entry = 0%nat ∧
  entry_events w selected entry = [].
Proof. unfold entry_items, entry_failures, entry_events. by intros ->. Qed.

Lemma entry_readable w selected entry it :
  hidden entry = false → probe w selected entry = Ok it →
  entry_items w selected entry = [it] ∧ entry_failures w selected entry = 0%nat ∧
  entry_events w selected entry = probe_events w selected entry.
Proof. unfold entry_items, entry_failures, entry_events. by intros -> ->. Qed.

Lemma entry_unreadable w selected entry e :
  hidden entry = false → probe w selected entry = Err e →
  entry_items w selected entry = [] ∧ entry_failures w selected entry = 1%nat ∧
  entry_events w selected entry = probe_events w selected entry.
Proof. unfold entry_items, entry_failures, entry_events. by intros -> ->. Qed.

(** The loop, when the signal stays clear: every entry that is not hidden is
    probed once, in order; the ones that answer are pushed, the others
    counted. *)
Lemma scan_entries_run w selected total entries : ∀ i loc sys,
  not_aborted w i (length entries) →
  ∃ a',
    scan_entries w selected total i entries loc sys =
      (Normal (mkLocals (newItems loc ++ listed_items w selected entries)
                        (processedCount loc + length (listed_items w selected entries))
                        (failedCount loc + failures w selected entries)),
       mkSys a' (trace sys ++ scan_events w selected entries)) ∧
    isLoading a' = isLoading (appState sys) ∧
    selectedFolder a' = selectedFolder (appState sys) ∧
    error a' = error (appState sys) ∧
    abortControllerRef a' = abortControllerRef (appState sys) ∧
    scannedCount a' =
      (if decide (listed_items w selected entries = []) then scannedCount (appState sys)
       else (processedCount loc + length (listed_items w selected entries))%nat) ∧
    (∀ x, x ∈ items a' →
          x ∈ items (appState sys) ∨ x ∈ newItems loc ++ listed_items w selected entries).
Proof.
  induction entries as [|entry rest IH]; intros i loc sys Hclear.
  - exists (appState sys). simpl. rewrite !app_nil_r, !Nat.add_0_r.
    destruct loc, sys; simpl. split_and!; auto.
  - apply not_aborted_cons in Hclear as [Hi Hrest].
    change (listed_items w selected (entry :: rest))
      with (entry_items w selected entry ++ listed_items w selected rest).
    change (failures w selected (entry :: rest))
      with (entry_failures w selected entry + failures w selected rest)%nat.
    change (scan_events w selected (entry :: rest))
      with (entry_events w selected entry ++ scan_events w selected rest).
    cbn [scan_entries]. rewrite Hi.
    destruct (startsWith (DirEntry.name entry) ".") eqn:Hdot.
    { destruct (entry_hidden w selected entry Hdot) as (-> & -> & ->).
      rewrite Nat.add_0_l. apply IH, Hrest. }
    unfold bind. rewrite probe_entry_run.
    destruct (probe w selected entry) as [it|e] eqn:Hprobe.
    + destruct (entry_readable w selected entry it Hdot Hprobe) as (-> & -> & ->).
      destruct (IH (S i) (mkLocals (newItems loc ++ [it]) (S (processedCount loc)) (failedCount loc))
                  (mkSys (after_push total (S (processedCount loc)) (newItems loc ++ [it]) (appState sys))
                         (trace sys ++ probe_events w selected entry)) Hrest)
        as (a' & -> & HL & HS & HE & HA & HC & HI).
      cbn [newItems processedCount failedCount appState trace] in *.
      exists a'. split_and!; try done.
      * rewrite <- !app_assoc. cbn [Datatypes.app length]. by rewrite Nat.add_succ_r.
      * rewrite HC. cbn [Datatypes.app length]. rewrite (decide_False (P := _ :: _ = [])) by done.
        destruct (decide (listed_items w selected rest = [])) as [->|_];
          cbn [length scannedCount after_push]; lia.
      * intros x Hx. apply HI in Hx as [Hx|Hx].
        -- unfold after_push in Hx. cbn [items] in Hx.
           destruct ((_ =? 0)%nat || _); [|by left].
           right. unfold sortItems in Hx. rewrite Array_sort_Permutation in Hx.
           apply elem_of_app in Hx as [Hx|Hx]; apply elem_of_app; [by left|right].
           apply list_elem_of_singleton in Hx as ->. left.
        -- right. by rewrite <- app_assoc in Hx.
    + destruct (entry_unreadable w selected entry e Hdot Hprobe) as (-> & -> & ->).
      destruct (IH (S i) (mkLocals (newItems loc) (processedCount loc) (S (failedCount loc)))
                  (mkSys (appState sys) (trace sys ++ probe_events w selected entry)) Hrest)
        as (a' & -> & HL & HS & HE & HA & HC & HI).
      cbn [newItems processedCount failedCount appState trace] in *.
      exists a'. split_and!; try done.
      rewrite <- !app_assoc. cbn [Datatypes.app]. by rewrite Nat.add_succ_l, Nat.add_succ_r.
Qed.

(** The loop, when the check for the entry after [pre] finds the signal
    aborted: the handler returns from that check, in the state the loop had
    reached after [pre]. *)
Lemma scan_entries_aborted w selected total pre entry post : ∀ i loc sys,
  not_aborted w i (length pre) →
  Tauri.signal_aborted w (i + length pre) = true →
  scan_entries w selected total i (pre ++ entry :: post) loc sys =
    (Returned, (scan_entries w selected total i pre loc sys).2).
Proof.
  induction pre as [|e pre IH]; intros i loc sys Hclear Hab; simpl in *.
  - rewrite Nat.add_0_r in Hab. by rewrite Hab.
  - apply not_aborted_cons in Hclear as [Hi Hrest]. rewrite Hi.
    rewrite Nat.add_succ_r in Hab.
    destruct (startsWith (DirEntry.name e) "."); [by apply IH|].
    unfold bind. rewrite probe_entry_run.
    destruct (probe w selected e); by apply IH.
Qed.

(** ** The handler, case by case *)

Ltac run_handler :=
  unfold scanFolder, try_catch, bind, setError, setIsLoading, setItems, setSelectedFolder,
    setScannedCount, set_abortControllerRef, modify, read, await, emit, ret, return_,
    prologue_events;
  cbn [appState trace abortControllerRef items isLoading selectedFolder error scannedCount].

(** The dialog itself fails: the outer [catch] runs; the listing on screen is
    the one that was there. *)
Lemma scanFolder_dialog_rejected w sys e :
  Tauri.open w = Err e →
  scanFolder w sys =
    (Normal (),
     mkSys (mkAppState (items (appState sys)) false (selectedFolder (appState sys))
                       (Some (scan_failed_message e)) (scannedCount (appState sys)) None)
           (trace sys ++ prologue_events (appState sys) ++ [ConsoleError [e]])).
Proof.
  intros Hopen. run_handler. rewrite Hopen.
  destruct (abortControllerRef (appState sys)); cbn; by rewrite <- !app_assoc.
Qed.

(** The dialog is dismissed: the handler returns before it touches the
    listing. *)
Lemma scanFolder_no_selection w sys selected :
  Tauri.open w = Ok selected → no_selection selected = true →
  scanFolder w sys =
    (Returned,
     mkSys (mkAppState (items (appState sys)) (isLoading (appState sys))
                       (selectedFolder (appState sys)) None (scannedCount (appState sys))
                       (abortControllerRef (appState sys)))
           (trace sys ++ prologue_events (appState sys))).
Proof.
  intros Hopen Hsel. run_handler. rewrite Hopen.
  destruct selected as [p|]; [rewrite Hsel|];
    destruct (abortControllerRef (appState sys)); cbn; by rewrite <- ?app_assoc.
Qed.

(** The listing of the selected folder fails. *)
Lemma scanFolder_root_unreadable w sys selected e :
  Tauri.open w = Ok (Some selected) → selected ≠ "" →
  Tauri.readDir w selected = Err e →
  scanFolder w sys =
    (Normal (),
     mkSys (mkAppState [] false (Some selected) (Some (scan_failed_message e)) 0 None)
           (trace sys ++ prologue_events (appState sys)
              ++ [CallReadDir selected; ConsoleError [e]])).
Proof.
  intros Hopen Hsel Hread. run_handler. rewrite Hopen.
  unfold no_selection. rewrite bool_decide_eq_false_2 by done. rewrite Hread.
  destruct (abortControllerRef (appState sys)); cbn; by rewrite <- !app_assoc.
Qed.

(** The listing succeeds and the signal stays clear. *)
Lemma scanFolder_completed w sys selected entries :
  Tauri.open w = Ok (Some selected) → selected ≠ "" →
  Tauri.readDir w selected = Ok entries →
  not_aborted w 0 (length entries) →
  scanFolder w sys =
    (Normal (),
     mkSys (mkAppState (sortItems (listed_items w selected entries)) false (Some selected)
                       (if nothing_readable w selected entries then Some metadata_error else None)
                       (length (listed_items w selected entries)) None)
           (trace sys ++ prologue_events (appState sys)
              ++ CallReadDir selected :: scan_events w selected entries)).
Proof.
  intros Hopen Hsel Hread Hclear. run_handler. rewrite Hopen.
  unfold no_selection. rewrite bool_decide_eq_false_2 by done. rewrite Hread.
  destruct (abortControllerRef (appState sys)) as [c|];
    cbn [appState trace abortControllerRef items isLoading selectedFolder error scannedCount];
    match goal with
    | |- context [scan_entries w selected ?n 0 entries ?loc ?s] =>
      destruct (scan_entries_run w selected n entries 0 loc s Hclear)
        as (a' & -> & HL & HS & HE & HA & HC & HI)
    end;
    cbn [newItems processedCount failedCount appState trace
         abortControllerRef items isLoading selectedFolder error scannedCount] in *;
    rewrite !Nat.add_0_l, app_nil_l; fold (nothing_readable w selected entries);
    (assert (scannedCount a' = length (listed_items w selected entries)) as Hcount
       by (rewrite HC; case_decide as Hnil; [by rewrite Hnil|done]));
    destruct (nothing_readable w selected entries);
    cbn [appState trace abortControllerRef items isLoading selectedFolder error scannedCount];
    rewrite HS, ?HE, Hcount, <- ?app_assoc; reflexivity.
Qed.

(** The listing succeeds and the check before the entry after [pre] finds the
    signal aborted. *)
Lemma scanFolder_aborted w sys selected pre entry post :
  Tauri.open w = Ok (Some selected) → selected ≠ "" →
  Tauri.readDir w selected = Ok (pre ++ entry :: post) →
  not_aborted w 0 (length pre) →
  Tauri.signal_aborted w (length pre) = true →
  ∃ a',
    scanFolder w sys =
      (Returned,
       mkSys a' (trace sys ++ prologue_events (appState sys)
                   ++ CallReadDir selected :: scan_events w selected pre)) ∧
    isLoading a' = true ∧
    selectedFolder a' = Some selected ∧
    error a' = None ∧
    abortControllerRef a' = Some (Tauri.new_AbortController w) ∧
    scannedCount a' = length (listed_items w selected pre) ∧
    (∀ x, x ∈ items a' → x ∈ listed_items w selected pre).
Proof.
  intros Hopen Hsel Hread Hclear Hab. run_handler. rewrite Hopen.
  unfold no_selection. rewrite bool_decide_eq_false_2 by done. rewrite Hread.
  destruct (abortControllerRef (appState sys)) as [c|];
    cbn [appState trace abortControllerRef items isLoading selectedFolder error scannedCount];
    rewrite scan_entries_aborted by done;
    match goal with
    | |- context [scan_entries w selected ?n 0 pre ?loc ?s] =>
      destruct (scan_entries_run w selected n pre 0 loc s Hclear)
        as (a' & -> & HL & HS & HE & HA & HC & HI)
    end;
    cbn [newItems processedCount failedCount appState trace
         abortControllerRef items isLoading selectedFolder error scannedCount] in *;
    exists a'; (split_and!; try done);
    [ by rewrite <- ?app_assoc
    | rewrite HC; case_decide as Hnil; [by rewrite Hnil|done]
    | intros x Hx; apply HI in Hx as [Hx|Hx]; [by apply elem_of_nil in Hx|done]
    | by rewrite <- ?app_assoc
    | rewrite HC; case_decide as Hnil; [by rewrite Hnil|done]
    | intros x Hx; apply HI in Hx as [Hx|Hx]; [by apply elem_of_nil in Hx|done] ].
Qed.

(** Either the signal is clear at the first [n] checks, or there is a first
    check that finds it aborted. *)
Lemma first_abort w n :
  not_aborted w 0 n ∨
  ∃ k, (k < n)%nat ∧ not_aborted w 0 k ∧ Tauri.signal_aborted w k = true.
Proof.
  induction n as [|n [IH|(k & Hk & Hclear & Hab)]].
  - left. intros j Hj. lia.
  - destruct (Tauri.signal_aborted w n) eqn:Hn.
    + right. exists n. split_and!; [lia|done|done].
    + left. intros j Hj. destruct (decide (j = n)) as [->|Hne]; [done|].
      apply IH. lia.
  - right. exists k. split_and!; [lia|done|done].
Qed.

Lemma split_at_index {A} (l : list A) k :
  (k < length l)%nat → ∃ x, l = take k l ++ x :: drop (S k) l ∧ length (take k l) = k.
Proof.
  intros Hk. destruct (lookup_lt_is_Some_2 l k Hk) as [x Hx].
  exists x. split.
  - by rewrite <- (take_drop_middle l k x Hx) at 1.
  - rewrite length_take. lia.
Qed.

(** ** What the listing and the trace contain *)

Lemma elem_of_sortItems x xs : x ∈ sortItems xs ↔ x ∈ xs.
Proof. by rewrite sortItems_Permutation. Qed.

Lemma elem_of_listed_items w selected entries it :
  it ∈ listed_items w selected entries ↔
  ∃ entry, entry ∈ entries ∧ hidden entry = false ∧ probe w selected entry = Ok it.
Proof.
  unfold listed_items. induction entries as [|e rest IH]; simpl.
  - split; [by intros ?%elem_of_nil|]. intros (entry & ?%elem_of_nil & _). done.
  - rewrite elem_of_app, IH. unfold entry_items. split.
    + intros [Hit|(entry & Hin & Hh & Hp)].
      * destruct (hidden e) eqn:Hh; [by apply elem_of_nil in Hit|].
        destruct (probe w selected e) as [it'|] eqn:Hp; [|by apply elem_of_nil in Hit].
        apply list_elem_of_singleton in Hit as ->. exists e. split_and!; [left|done|done].
      * exists entry. split_and!; [by right|done|done].
    + intros (entry & [->|Hin]%elem_of_cons & Hh & Hp).
      * left. rewrite Hh, Hp. left.
      * right. eauto.
Qed.

Lemma elem_of_scan_events w selected entries ev :
  ev ∈ scan_events w selected entries →
  ∃ entry, entry ∈ entries ∧ hidden entry = false ∧ ev ∈ probe_events w selected entry.
Proof.
  unfold scan_events. induction entries as [|e rest IH]; simpl.
  - by intros ?%elem_of_nil.
  - intros [Hev|Hev]%elem_of_app.
    + unfold entry_events in Hev. destruct (hidden e) eqn:Hh; [by apply elem_of_nil in Hev|].
      exists e. split_and!; [left|done|done].
    + destruct (IH Hev) as (entry & Hin & ? & ?). exists entry. split_and!; [by right|done|done].
Qed.

Lemma console_lines_count w selected entries :
  length (filter (λ ev, is_console_error ev = true) (scan_events w selected entries)) =
  failures w selected entries.
Proof.
  unfold scan_events, failures. induction entries as [|e rest IH]; simpl; [done|].
  rewrite filter_app, length_app, IH. f_equal.
  unfold entry_events, entry_failures, probe_events, probe.
  destruct (hidden e); [done|].
  destruct (Tauri.join w selected (DirEntry.name e)) as [p|]; [|done].
  by destruct (Tauri.size w p).
Qed.

Lemma listed_items_length w selected entries :
  (length (listed_items w selected entries) + failures w selected entries)%nat =
  length (filter visible entries).
Proof.
  unfold listed_items, failures. induction entries as [|e rest IH]; simpl; [done|].
  rewrite length_app, filter_cons.
  destruct (decide (visible e)) as [Hv|Hv]; unfold visible in Hv.
  - unfold entry_items at 1, entry_failures at 1. rewrite Hv.
    destruct (probe w selected e); simpl in *; lia.
  - apply not_false_is_true in Hv.
    unfold entry_items at 1, entry_failures at 1. rewrite Hv. simpl in *. lia.
Qed.

Lemma metadata_error_not_scan_failed e : metadata_error ≠ scan_failed_message e.
Proof. unfold metadata_error, scan_failed_message. simpl. discriminate. Qed.

(** Whatever the signal does, once the folder is listed the handler has
    probed a prefix of the listing and shows items of that prefix only; it
    never reports the scan as failed. *)
Lemma scanFolder_listed w sys selected entries :
  Tauri.open w = Ok (Some selected) → selected ≠ "" →
  Tauri.readDir w selected = Ok entries →
  ∃ pre post,
    entries = pre ++ post ∧
    trace (scanFolder w sys).2 =
      trace sys ++ prologue_events (appState sys)
        ++ CallReadDir selected :: scan_events w selected pre ∧
    (∀ x, x ∈ items (appState (scanFolder w sys).2) → x ∈ listed_items w selected pre) ∧
    (∀ e, error (appState (scanFolder w sys).2) ≠ Some (scan_failed_message e)).
Proof.
  intros Hopen Hsel Hread.
  destruct (first_abort w (length entries)) as [Hclear|(k & Hk & Hclear & Hab)].
  - exists entries, []. rewrite app_nil_r.
    rewrite (scanFolder_completed w sys selected entries) by done.
    cbn [snd appState trace items error]. split_and!; [done|done| |].
    + intros x. by rewrite elem_of_sortItems.
    + intros e. destruct (nothing_readable w selected entries); [|done].
      intros He. apply (metadata_error_not_scan_failed e). congruence.
  - destruct (split_at_index entries k Hk) as (x & Hsplit & Hlen).
    exists (take k entries), (x :: drop (S k) entries).
    rewrite Hsplit in Hread. rewrite <- Hlen in Hclear, Hab.
    destruct (scanFolder_aborted w sys selected _ _ _ Hopen Hsel Hread Hclear Hab)
      as (a' & -> & _ & _ & HE & _ & _ & HI).
    cbn [snd appState trace]. split_and!; [done|done|done|].
    intros e. by rewrite HE.
Qed.

(** ** Failures of the scan *)

(** C5. When the listing of the selected folder fails, the scan fails as
    a whole: the error is shown, loading ends, and the listing is empty (it
    was cleared before [readDir] and no entry was probed).  It is the only
    way a scan of a selected folder ends as failed: once the folder is
    listed, the failure message is never shown. *)
Theorem unreadable_root_fails_the_scan w sys selected :
  Tauri.open w = Ok (Some selected) → selected ≠ "" →
  (∀ e, Tauri.readDir w selected = Err e →
     (scanFolder w sys).1 = Normal () ∧
     appState (scanFolder w sys).2 =
       mkAppState [] false (Some selected) (Some (scan_failed_message e)) 0 None ∧
     trace (scanFolder w sys).2 =
       trace sys ++ prologue_events (appState sys) ++ [CallReadDir selected; ConsoleError [e]]) ∧
  (∀ entries, Tauri.readDir w selected = Ok entries →
     ∀ e, error (appState (scanFolder w sys).2) ≠ Some (scan_failed_message e)).
Proof.
  intros Hopen Hsel. split.
  - intros e Hread. by rewrite (scanFolder_root_unreadable w sys selected e).
  - intros entries Hread.
    destruct (scanFolder_listed w sys selected entries) as (pre & post & _ & _ & _ & HE); done.
Qed.

Lemma unreadable_root_fails_the_scan_witness :
  Tauri.open unreadable_root_world = Ok (Some "/d") ∧ "/d" ≠ "" ∧
  Tauri.readDir unreadable_root_world "/d" = Err "forbidden path" ∧
  items (appState after_earlier_scan) = [file_b; file_a] ∧
  appState (scanFolder unreadable_root_world after_earlier_scan).2 =
    mkAppState [] false (Some "/d") (Some "Failed to scan folder: forbidden path") 0 None.
Proof.
  split_and!; [reflexivity|discriminate|reflexivity|reflexivity|].
  destruct (unreadable_root_fails_the_scan unreadable_root_world after_earlier_scan "/d")
    as [Hfail _]; [reflexivity|discriminate|].
  destruct (Hfail "forbidden path") as (_ & Hstate & _); [reflexivity|exact Hstate].
Defined.

(** With one entry read, the guard of the metadata message is false. *)
Lemma readable_entry_no_message w selected entries :
  (∃ entry, entry ∈ entries ∧ hidden entry = false ∧ readable w selected entry = true) →
  nothing_readable w selected entries = false.
Proof.
  intros (entry & Hin & Hvis & Hr). unfold readable in Hr.
  destruct (probe w selected entry) as [it|] eqn:Hp; [|done].
  assert (it ∈ listed_items w selected entries) as Hit.
  { apply elem_of_listed_items. eauto. }
  unfold nothing_readable.
  destruct (listed_items w selected entries); [by apply elem_of_nil in Hit|].
  simpl. by rewrite andb_false_r.
Qed.

(** C2. A failure while probing one entry does not end the scan: the
    handler completes, loading ends, the failure message of the scan is not
    shown; every entry that is not hidden and whose path and size were read
    is in the final listing with that size, and every item of the listing
    comes from such an entry, so an entry whose probe failed is left out.
    With one readable entry there is no error message at all. *)
Theorem probe_failure_is_not_fatal w sys selected entries :
  Tauri.open w = Ok (Some selected) → selected ≠ "" →
  Tauri.readDir w selected = Ok entries →
  not_aborted w 0 (length entries) →
  (scanFolder w sys).1 = Normal () ∧
  isLoading (appState (scanFolder w sys).2) = false ∧
  (∀ e, error (appState (scanFolder w sys).2) ≠ Some (scan_failed_message e)) ∧
  items (appState (scanFolder w sys).2) = sortItems (listed_items w selected entries) ∧
  (∀ entry fullPath itemSize,
     entry ∈ entries → hidden entry = false →
     Tauri.join w selected (DirEntry.name entry) = Ok fullPath →
     Tauri.size w fullPath = Ok itemSize →
     FileSystemItem.mk (DirEntry.name entry) fullPath itemSize (DirEntry.isDirectory entry)
       ∈ items (appState (scanFolder w sys).2)) ∧
  (∀ it, it ∈ items (appState (scanFolder w sys).2) →
     ∃ entry, entry ∈ entries ∧ hidden entry = false ∧ probe w selected entry = Ok it) ∧
  ((∃ entry, entry ∈ entries ∧ hidden entry = false ∧ readable w selected entry = true) →
     error (appState (scanFolder w sys).2) = None).
Proof.
  intros Hopen Hsel Hread Hclear.
  destruct (scanFolder_listed w sys selected entries Hopen Hsel Hread)
    as (_ & _ & _ & _ & _ & Hnofail).
  rewrite (scanFolder_completed w sys selected entries) in * by done.
  cbn [fst snd appState items isLoading error] in *.
  split_and!; try done.
  - intros entry fullPath itemSize Hin Hvis Hjoin Hsize.
    apply elem_of_sortItems, elem_of_listed_items.
    exists entry. split_and!; [done|done|]. unfold probe. by rewrite Hjoin, Hsize.
  - intros it Hit. by apply elem_of_sortItems, elem_of_listed_items in Hit.
  - intros Hr. by rewrite readable_entry_no_message.
Qed.

Lemma sample_world_clear n : not_aborted sample_world 0 n.
Proof. intros j _. reflexivity. Qed.

Lemma probe_failure_is_not_fatal_witness :
  Tauri.open sample_world = Ok (Some "/d") ∧ "/d" ≠ "" ∧
  Tauri.readDir sample_world "/d" = Ok sample_entries ∧
  not_aborted sample_world 0 (length sample_entries) ∧
  Tauri.size sample_world "/d/locked" = Err "permission denied" ∧
  (scanFolder sample_world mounted).1 = Normal () ∧
  FileSystemItem.mk "a.txt" "/d/a.txt" 100 false
    ∈ items (appState (scanFolder sample_world mounted).2) ∧
  error (appState (scanFolder sample_world mounted).2) = None.
Proof.
  assert (Tauri.open sample_world = Ok (Some "/d")) as Hopen by reflexivity.
  assert ("/d" ≠ "") as Hsel by discriminate.
  assert (Tauri.readDir sample_world "/d" = Ok sample_entries) as Hread by reflexivity.
  pose proof (sample_world_clear (length sample_entries)) as Hclear.
  destruct (probe_failure_is_not_fatal sample_world mounted "/d" sample_entries
              Hopen Hsel Hread Hclear) as (Hdone & _ & _ & _ & Hin & _ & Hnone).
  split_and!; [exact Hopen|exact Hsel|exact Hread|exact Hclear|reflexivity|exact Hdone| |].
  - apply (Hin (DirEntry.mk "a.txt" false) "/d/a.txt" 100);
      [left|reflexivity|reflexivity|reflexivity].
  - apply Hnone. exists (DirEntry.mk "a.txt" false).
    split_and!; [left|reflexivity|reflexivity].
Defined.

Lemma filter_visible_all (entries : list DirEntry.t) :
  (∀ entry, entry ∈ entries → hidden entry = false) → filter visible entries = entries.
Proof.
  induction entries as [|e rest IH]; intros Hall; [done|].
  rewrite filter_cons_True by (apply Hall; left).
  rewrite IH; [done|]. intros entry Hin. apply Hall. by right.
Qed.

(** C3. On the code the number of failed probes is not shown: it is a
    variable of the loop that only the guard of one message reads.  What
    holds after a completed scan: the variable counts the entries that are
    not hidden and whose probe failed, and each of them left one line on the
    console; when some entry was read, no error message is shown, however
    many probes failed; when the folder is not empty, no entry is hidden and
    every probe failed, the metadata message is shown. *)
Theorem failed_probes_logged_not_shown w sys selected entries :
  Tauri.open w = Ok (Some selected) → selected ≠ "" →
  Tauri.readDir w selected = Ok entries →
  not_aborted w 0 (length entries) →
  (∀ s, ∃ loc s',
     scan_entries w selected (length entries) 0 entries (mkLocals [] 0 0) s = (Normal loc, s') ∧
     failedCount loc = failures w selected entries) ∧
  trace (scanFolder w sys).2 =
    trace sys ++ prologue_events (appState sys)
      ++ CallReadDir selected :: scan_events w selected entries ∧
  length (filter (λ ev, is_console_error ev = true) (scan_events w selected entries)) =
    failures w selected entries ∧
  ((∃ entry, entry ∈ entries ∧ hidden entry = false ∧ readable w selected entry = true) →
     error (appState (scanFolder w sys).2) = None) ∧
  (entries ≠ [] →
   (∀ entry, entry ∈ entries → hidden entry = false ∧ readable w selected entry = false) →
     error (appState (scanFolder w sys).2) = Some metadata_error).
Proof.
  intros Hopen Hsel Hread Hclear.
  split_and!.
  - intros s.
    destruct (scan_entries_run w selected (length entries) entries 0 (mkLocals [] 0 0) s Hclear)
      as (a' & Hrun & _).
    eexists _, _. split; [exact Hrun|]. done.
  - by rewrite (scanFolder_completed w sys selected entries).
  - apply console_lines_count.
  - intros Hr. rewrite (scanFolder_completed w sys selected entries) by done.
    cbn [snd appState error]. by rewrite readable_entry_no_message.
  - intros Hne Hall.
    rewrite (scanFolder_completed w sys selected entries) by done.
    cbn [snd appState error].
    assert (listed_items w selected entries = []) as Hnil.
    { destruct (listed_items w selected entries) as [|it l] eqn:Hl; [done|].
      assert (it ∈ listed_items w selected entries) as Hit by (rewrite Hl; left).
      apply elem_of_listed_items in Hit as (entry & Hin & _ & Hp).
      destruct (Hall entry Hin) as [_ Hr]. unfold readable in Hr. by rewrite Hp in Hr. }
    pose proof (listed_items_length w selected entries) as Hlen.
    rewrite Hnil, filter_visible_all in Hlen by (intros entry Hin; by apply Hall).
    unfold nothing_readable. rewrite Hnil. simpl in Hlen. rewrite Hlen.
    destruct entries; [done|]. simpl. by rewrite Nat.eqb_refl.
Qed.

Lemma failed_probes_logged_not_shown_witness :
  Tauri.open mixed_world = Ok (Some "/d") ∧ "/d" ≠ "" ∧
  not_aborted mixed_world 0 2 ∧
  failures mixed_world "/d" [DirEntry.mk "a.txt" false; DirEntry.mk "locked" false] = 1%nat ∧
  error (appState (scanFolder mixed_world mounted).2) = None.
Proof.
  assert (Tauri.open mixed_world = Ok (Some "/d")) as Hopen by reflexivity.
  assert ("/d" ≠ "") as Hsel by discriminate.
  assert (not_aborted mixed_world 0 2) as Hclear by (intros j _; reflexivity).
  split_and!; [done|done|done|reflexivity|].
  destruct (failed_probes_logged_not_shown mixed_world mounted "/d"
              [DirEntry.mk "a.txt" false; DirEntry.mk "locked" false]
              Hopen Hsel eq_refl Hclear) as (_ & _ & _ & Hnone & _).
  apply Hnone. exists (DirEntry.mk "a.txt" false).
  split_and!; [left|reflexivity|reflexivity].
Defined.

(** C3, as the claim states it, fails: a scan in which one probe failed and
    one succeeded ends in the very state of a scan in which nothing failed;
    the count of failures, [1] against [0], is nowhere in it. *)
Lemma failed_count_absent_from_state :
  (scan_entries mixed_world "/d" 2 0
     [DirEntry.mk "a.txt" false; DirEntry.mk "locked" false] (mkLocals [] 0 0) mounted).1 =
    Normal (mkLocals [FileSystemItem.mk "a.txt" "/d/a.txt" 100 false] 1 1) ∧
  (scan_entries one_file_world "/d" 1 0
     [DirEntry.mk "a.txt" false] (mkLocals [] 0 0) mounted).1 =
    Normal (mkLocals [FileSystemItem.mk "a.txt" "/d/a.txt" 100 false] 1 0) ∧
  appState (scanFolder mixed_world mounted).2 = appState (scanFolder one_file_world mounted).2 ∧
  appState (scanFolder mixed_world mounted).2 =
    mkAppState [FileSystemItem.mk "a.txt" "/d/a.txt" 100 false] false (Some "/d") None 1 None.
Proof. split_and!; reflexivity. Qed.

(** ** Cancellation *)

(** C4. The signal is read once per entry, before the entry is handled.
    When that check finds it aborted, the handler returns there: the calls
    made are exactly those for the entries before, none is made for the entry
    at the check or for any later one; the run without the abort makes the
    same calls first and then the remaining ones, so the signal changes no
    call that was made. *)
Theorem abort_stops_the_scan w sys selected pre entry post :
  Tauri.open w = Ok (Some selected) → selected ≠ "" →
  Tauri.readDir w selected = Ok (pre ++ entry :: post) →
  not_aborted w 0 (length pre) →
  Tauri.signal_aborted w (length pre) = true →
  (scanFolder w sys).1 = Returned ∧
  trace (scanFolder w sys).2 =
    trace sys ++ prologue_events (appState sys)
      ++ CallReadDir selected :: scan_events w selected pre ∧
  trace (scanFolder (with_signal w (λ _, false)) sys).2 =
    trace (scanFolder w sys).2 ++ scan_events w selected (entry :: post) ∧
  (∀ x, x ∈ items (appState (scanFolder w sys).2) → x ∈ listed_items w selected pre) ∧
  scannedCount (appState (scanFolder w sys).2) = length (listed_items w selected pre) ∧
  isLoading (appState (scanFolder w sys).2) = true.
Proof.
  intros Hopen Hsel Hread Hclear Hab.
  destruct (scanFolder_aborted w sys selected pre entry post Hopen Hsel Hread Hclear Hab)
    as (a' & Hrun & HL & _ & _ & _ & HC & HI).
  rewrite Hrun. cbn [fst snd appState trace]. split_and!; try done.
  rewrite (scanFolder_completed (with_signal w (λ _, false)) sys selected (pre ++ entry :: post))
    by done.
  cbn [snd trace].
  change (scan_events (with_signal w (λ _, false)) selected (pre ++ entry :: post))
    with (scan_events w selected (pre ++ entry :: post)).
  unfold scan_events. rewrite flat_map_app, <- !app_assoc. reflexivity.
Qed.

Lemma abort_stops_the_scan_witness :
  Tauri.open cancelled_world = Ok (Some "/d") ∧ "/d" ≠ "" ∧
  Tauri.readDir cancelled_world "/d" =
    Ok ([DirEntry.mk "a.txt" false; DirEntry.mk ".DS_Store" false]
          ++ DirEntry.mk "sub" true :: [DirEntry.mk "locked" false]) ∧
  not_aborted cancelled_world 0 2 ∧
  Tauri.signal_aborted cancelled_world 2 = true ∧
  (scanFolder cancelled_world mounted).1 = Returned ∧
  trace (scanFolder cancelled_world mounted).2 =
    [CallOpen; CallReadDir "/d"; CallJoin "/d" "a.txt"; CallSize "/d/a.txt"].
Proof.
  assert (not_aborted cancelled_world 0 2) as Hclear.
  { intros j Hj. simpl. apply bool_decide_eq_false_2. lia. }
  split_and!; [reflexivity|discriminate|reflexivity|exact Hclear|reflexivity| |].
  - apply (abort_stops_the_scan cancelled_world mounted "/d"
             [DirEntry.mk "a.txt" false; DirEntry.mk ".DS_Store" false]
             (DirEntry.mk "sub" true) [DirEntry.mk "locked" false]);
      [reflexivity|discriminate|reflexivity|exact Hclear|reflexivity].
  - reflexivity.
Defined.

(** ** Hidden entries *)

Lemma elem_of_probe_events w selected entry ev :
  ev ∈ probe_events w selected entry →
  match ev with
  | CallJoin dir name => dir = selected ∧ name = DirEntry.name entry
  | CallSize fullPath => Tauri.join w selected (DirEntry.name entry) = Ok fullPath
  | ConsoleError _ => True
  | _ => False
  end.
Proof.
  unfold probe_events, console_line.
  destruct (Tauri.join w selected (DirEntry.name entry)) as [p|e].
  - destruct (Tauri.size w p) as [sz|e];
      rewrite ?elem_of_cons; intros H; destruct_or?; subst; try done;
        by apply elem_of_nil in H.
  - rewrite ?elem_of_cons. intros H; destruct_or?; subst; try done.
    by apply elem_of_nil in H.
Qed.

(** With a signal that stays clear, the loop over a listing is the loop over
    its entries that are not hidden. *)
Lemma scan_entries_filter_visible w selected total entries :
  (∀ j, Tauri.signal_aborted w j = false) →
  ∀ i i' loc s,
    scan_entries w selected total i entries loc s =
    scan_entries w selected total i' (filter visible entries) loc s.
Proof.
  intros Hsig. induction entries as [|e rest IH]; intros i i' loc s; [done|].
  rewrite filter_cons. cbn [scan_entries]. rewrite Hsig.
  destruct (decide (visible e)) as [Hv|Hv]; unfold visible, hidden in Hv.
  - cbn [scan_entries]. rewrite Hsig, Hv. unfold bind.
    destruct (probe_entry w selected total e loc s) as [[loc'| |err] s']; [|done|done].
    apply IH.
  - apply not_false_is_true in Hv. rewrite Hv. apply IH.
Qed.

(** C6. An entry whose name starts with ["."] is skipped: no item of the
    listing has such a name; after [readDir], every [join] is for the
    selected folder and a name that does not start with ["."], and every
    [size] is for the path of such an entry; the two counters of the loop
    together count the other entries only; and with a clear signal the loop
    does on the listing what it does on the listing without its hidden
    entries. *)
Theorem hidden_entries_are_skipped w sys selected entries :
  Tauri.open w = Ok (Some selected) → selected ≠ "" →
  Tauri.readDir w selected = Ok entries →
  (∀ it, it ∈ items (appState (scanFolder w sys).2) →
     startsWith (FileSystemItem.name it) "." = false) ∧
  (∃ evs,
     trace (scanFolder w sys).2 =
       trace sys ++ prologue_events (appState sys) ++ CallReadDir selected :: evs ∧
     (∀ dir name, CallJoin dir name ∈ evs → dir = selected ∧ startsWith name "." = false) ∧
     (∀ fullPath, CallSize fullPath ∈ evs →
        ∃ entry, entry ∈ entries ∧ startsWith (DirEntry.name entry) "." = false ∧
                 Tauri.join w selected (DirEntry.name entry) = Ok fullPath)) ∧
  (not_aborted w 0 (length entries) →
   ∀ s, ∃ loc s',
     scan_entries w selected (length entries) 0 entries (mkLocals [] 0 0) s = (Normal loc, s') ∧
     (processedCount loc + failedCount loc)%nat = length (filter visible entries)) ∧
  ((∀ j, Tauri.signal_aborted w j = false) →
   ∀ total i i' loc s,
     scan_entries w selected total i entries loc s =
     scan_entries w selected total i' (filter visible entries) loc s).
Proof.
  intros Hopen Hsel Hread.
  destruct (scanFolder_listed w sys selected entries Hopen Hsel Hread)
    as (pre & post & Hsplit & Htrace & Hitems & _).
  split_and!.
  - intros it Hit. apply Hitems, elem_of_listed_items in Hit as (entry & _ & Hvis & Hp).
    unfold probe in Hp.
    destruct (Tauri.join w selected (DirEntry.name entry)) as [p|]; [|done].
    destruct (Tauri.size w p); [|done]. by injection Hp as <-.
  - exists (scan_events w selected pre). split_and!; [done| |].
    + intros dir name Hev.
      apply elem_of_scan_events in Hev as (entry & _ & Hvis & Hev).
      apply elem_of_probe_events in Hev as [-> ->]. done.
    + intros fullPath Hev.
      apply elem_of_scan_events in Hev as (entry & Hin & Hvis & Hev).
      apply elem_of_probe_events in Hev.
      exists entry. split_and!; [|done|done].
      rewrite Hsplit. apply elem_of_app. by left.
  - intros Hclear s.
    destruct (scan_entries_run w selected (length entries) entries 0 (mkLocals [] 0 0) s Hclear)
      as (a' & Hrun & _).
    eexists _, _. split; [exact Hrun|].
    cbn [processedCount failedCount]. apply listed_items_length.
  - intros Hsig total. by apply scan_entries_filter_visible.
Qed.

Lemma hidden_entries_are_skipped_witness :
  Tauri.open sample_world = Ok (Some "/d") ∧ "/d" ≠ "" ∧
  Tauri.readDir sample_world "/d" = Ok sample_entries ∧
  DirEntry.mk ".DS_Store" false ∈ sample_entries ∧
  (∀ it, it ∈ items (appState (scanFolder sample_world mounted).2) →
     startsWith (FileSystemItem.name it) "." = false) ∧
  scan_entries sample_world "/d" 4 0 sample_entries (mkLocals [] 0 0) mounted =
  scan_entries sample_world "/d" 4 0
    [DirEntry.mk "a.txt" false; DirEntry.mk "sub" true; DirEntry.mk "locked" false]
    (mkLocals [] 0 0) mounted.
Proof.
  destruct (hidden_entries_are_skipped sample_world mounted "/d" sample_entries)
    as (Hitems & _ & _ & Hloop); [reflexivity|discriminate|reflexivity|].
  split_and!; [reflexivity|discriminate|reflexivity| |exact Hitems|].
  - right. left.
  - apply (Hloop (λ j, eq_refl) 4%nat 0%nat 0%nat).
Defined.

(** ** Determinism *)

Lemma listed_items_ext w1 w2 selected entries :
  (∀ entry, entry ∈ entries → probe w1 selected entry = probe w2 selected entry) →
  listed_items w1 selected entries = listed_items w2 selected entries ∧
  failures w1 selected entries = failures w2 selected entries.
Proof.
  unfold listed_items, failures.
  induction entries as [|e rest IH]; intros Hext; [done|]. simpl.
  destruct IH as [-> ->]; [intros entry Hin; apply Hext; by right|].
  unfold entry_items, entry_failures. by rewrite (Hext e) by left.
Qed.

(** C8. Sorting a sorted listing changes nothing.  Two scans that complete
    over the same listing, with the same answer for each listed entry, end in
    the same state whatever state they started from: the same items in the
    same order, the same count, the same message; in particular a second
    scan of an unchanged folder reproduces the state the first one left. *)
Theorem scan_and_sort_deterministic :
  (∀ xs, sortItems (sortItems xs) = sortItems xs) ∧
  (∀ w1 w2 sys1 sys2 selected entries,
     Tauri.open w1 = Ok (Some selected) → Tauri.open w2 = Ok (Some selected) →
     selected ≠ "" →
     Tauri.readDir w1 selected = Ok entries → Tauri.readDir w2 selected = Ok entries →
     (∀ entry, entry ∈ entries → probe w1 selected entry = probe w2 selected entry) →
     not_aborted w1 0 (length entries) → not_aborted w2 0 (length entries) →
     (scanFolder w1 sys1).1 = (scanFolder w2 sys2).1 ∧
     appState (scanFolder w1 sys1).2 = appState (scanFolder w2 sys2).2) ∧
  (∀ w sys selected entries,
     Tauri.open w = Ok (Some selected) → selected ≠ "" →
     Tauri.readDir w selected = Ok entries →
     not_aborted w 0 (length entries) →
     appState (scanFolder w (scanFolder w sys).2).2 = appState (scanFolder w sys).2).
Proof.
  assert (∀ w1 w2 sys1 sys2 selected entries,
     Tauri.open w1 = Ok (Some selected) → Tauri.open w2 = Ok (Some selected) →
     selected ≠ "" →
     Tauri.readDir w1 selected = Ok entries → Tauri.readDir w2 selected = Ok entries →
     (∀ entry, entry ∈ entries → probe w1 selected entry = probe w2 selected entry) →
     not_aborted w1 0 (length entries) → not_aborted w2 0 (length entries) →
     (scanFolder w1 sys1).1 = (scanFolder w2 sys2).1 ∧
     appState (scanFolder w1 sys1).2 = appState (scanFolder w2 sys2).2) as Hsame.
  { intros w1 w2 sys1 sys2 selected entries Ho1 Ho2 Hsel Hr1 Hr2 Hext Hc1 Hc2.
    rewrite (scanFolder_completed w1 sys1 selected entries) by done.
    rewrite (scanFolder_completed w2 sys2 selected entries) by done.
    destruct (listed_items_ext w1 w2 selected entries Hext) as [Hl Hf].
    unfold nothing_readable. rewrite Hl, Hf. done. }
  split_and!.
  - intros xs. apply Array_sort_idempotent;
      [apply compareItems_trans|apply compareItems_total].
  - exact Hsame.
  - intros w sys selected entries Hopen Hsel Hread Hclear.
    by apply (Hsame w w _ _ selected entries).
Qed.

Lemma scan_and_sort_deterministic_witness :
  Tauri.open sample_world = Ok (Some "/d") ∧ "/d" ≠ "" ∧
  Tauri.readDir sample_world "/d" = Ok sample_entries ∧
  not_aborted sample_world 0 (length sample_entries) ∧
  appState (scanFolder sample_world (scanFolder sample_world after_earlier_scan).2).2 =
    appState (scanFolder sample_world after_earlier_scan).2.
Proof.
  destruct scan_and_sort_deterministic as (_ & _ & Htwice).
  split_and!; [reflexivity|discriminate|reflexivity|apply sample_world_clear|].
  apply (Htwice sample_world after_earlier_scan "/d" sample_entries);
    [reflexivity|discriminate|reflexivity|apply sample_world_clear].
Defined.

(** ** [formatFileSize] *)

Section FormatFileSize.
Context (exponential : Z → Z → string).

Lemma Number_toString_small x :
  Z.abs x < 10 ^ 21 → Number_toString exponential x = pretty x.
Proof.
  intros Hx. unfold Number_toString.
  destruct (Z.ltb_spec (Z.abs x) (10 ^ 21)); [done|lia].
Qed.

(** C10. On a byte count that is not negative, [formatFileSize] answers
    ["0 Bytes"] for [0], the count itself with [" Bytes"] below [1024], the
    two-digit quotient by [1024] with [" KB"] below [1024^2], by [1024^2]
    with [" MB"] below [1024^3], and by [1024^3] with [" GB"] from there on,
    with no bound above. *)
Theorem formatFileSize_units bytes :
  0 ≤ bytes →
  (bytes = 0 → formatFileSize exponential bytes = "0 Bytes") ∧
  (0 < bytes < 1024 → formatFileSize exponential bytes = pretty bytes +:+ " Bytes") ∧
  (1024 ≤ bytes < 1024 ^ 2 →
     formatFileSize exponential bytes = toFixed2 exponential bytes 1024 +:+ " KB") ∧
  (1024 ^ 2 ≤ bytes < 1024 ^ 3 →
     formatFileSize exponential bytes = toFixed2 exponential bytes (1024 ^ 2) +:+ " MB") ∧
  (1024 ^ 3 ≤ bytes →
     formatFileSize exponential bytes = toFixed2 exponential bytes (1024 ^ 3) +:+ " GB").
Proof.
  intros Hpos. unfold formatFileSize.
  change (1024 ^ 2) with 1048576. change (1024 ^ 3) with 1073741824.
  split_and!; intros Hrange.
  - by rewrite Hrange.
  - destruct (Z.eqb_spec bytes 0); [lia|].
    destruct (Z.ltb_spec bytes 1024); [|lia].
    rewrite Number_toString_small; [done|].
    change (10 ^ 21) with 1000000000000000000000. lia.
  - destruct (Z.eqb_spec bytes 0); [lia|].
    destruct (Z.ltb_spec bytes 1024); [lia|].
    destruct (Z.ltb_spec bytes 1048576); [done|lia].
  - destruct (Z.eqb_spec bytes 0); [lia|].
    destruct (Z.ltb_spec bytes 1024); [lia|].
    destruct (Z.ltb_spec bytes 1048576); [lia|].
    destruct (Z.ltb_spec bytes 1073741824); [done|lia].
  - destruct (Z.eqb_spec bytes 0); [lia|].
    destruct (Z.ltb_spec bytes 1024); [lia|].
    destruct (Z.ltb_spec bytes 1048576); [lia|].
    destruct (Z.ltb_spec bytes 1073741824); [lia|done].
Qed.
End FormatFileSize.

Lemma formatFileSize_units_witness :
  0 ≤ 1024 ^ 5 ∧ formatFileSize (λ _ _, "") (1024 ^ 5) = "1048576.00 GB".
Proof.
  split; [by vm_compute|].
  destruct (formatFileSize_units (λ _ _, "") (1024 ^ 5)) as (_ & _ & _ & _ & HGB);
    [by vm_compute|].
  rewrite HGB by (by vm_compute). by vm_compute.
Defined.

(** The values at the boundaries of the units. *)
Example formatFileSize_boundaries exponential :
  map (formatFileSize exponential)
      [0; 1; 1023; 1024; 1536; 1048575; 1048576; 1073741823; 1073741824; 1024 ^ 4] =
  ["0 Bytes"; "1 Bytes"; "1023 Bytes"; "1.00 KB"; "1.50 KB"; "1024.00 KB"; "1.00 MB";
   "1024.00 MB"; "1.00 GB"; "1024.00 GB"].
Proof. by vm_compute. Qed.

(** What the handler does on the sample folder. *)
Example scanFolder_sample :
  scanFolder sample_world mounted =
  (Normal (),
   mkSys (mkAppState [FileSystemItem.mk "sub" "/d/sub" 4096 true;
                      FileSystemItem.mk "a.txt" "/d/a.txt" 100 false]
                     false (Some "/d") None 2 None)
         [CallOpen; CallReadDir "/d";
          CallJoin "/d" "a.txt"; CallSize "/d/a.txt";
          CallJoin "/d" "sub"; CallSize "/d/sub";
          CallJoin "/d" "locked"; CallSize "/d/locked";
          ConsoleError ["Error reading locked:"; "permission denied"]]).
Proof. reflexivity. Qed.

(** * Further properties *)

(** ** The comparator and the order of the input *)

(** X1. The comparator of [sortItems] is consistent: swapping its arguments
    negates its answer, it answers [0] exactly for two items of one kind and
    one size, and "not after" and "before" are both transitive. *)
Theorem compareItems_consistent a b c :
  compareItems b a = - compareItems a b ∧
  (compareItems a b = 0 ↔ same_key a b) ∧
  (compareItems a b ≤ 0 → compareItems b c ≤ 0 → compareItems a c ≤ 0) ∧
  (compareItems a b < 0 → compareItems b c ≤ 0 → compareItems a c < 0).
Proof.
  unfold compareItems, same_key.
  destruct (FileSystemItem.isDirectory a), (FileSystemItem.isDirectory b),
    (FileSystemItem.isDirectory c); simpl; split_and!; try lia; try (split; [lia|]);
    try (intros [? ?]; first [done|lia]); try (intros ?; split; [done|lia]).
Qed.

Lemma compareItems_consistent_witness :
  compareItems (sized "big" 9 false) (sized "dir" 1 true) = 1 ∧
  compareItems (sized "dir" 1 true) (sized "big" 9 false) < 0 ∧
  compareItems (sized "big" 9 false) (sized "small" 2 false) ≤ 0 ∧
  compareItems (sized "dir" 1 true) (sized "small" 2 false) < 0.
Proof.
  destruct (compareItems_consistent (sized "dir" 1 true) (sized "big" 9 false)
              (sized "small" 2 false)) as (Hswap & _ & _ & Hlt).
  assert (compareItems (sized "dir" 1 true) (sized "big" 9 false) < 0) as H1 by reflexivity.
  assert (compareItems (sized "big" 9 false) (sized "small" 2 false) ≤ 0) as H2
    by (vm_compute; discriminate).
  split_and!; [by rewrite Hswap|exact H1|exact H2|exact (Hlt H1 H2)].
Defined.

Lemma Permutation_short {A} (l1 l2 : list A) :
  l1 ≡ₚ l2 → (length l1 ≤ 1)%nat → l1 = l2.
Proof.
  intros Hp Hlen. destruct l1 as [|x [|y l1]]; simpl in Hlen; [| |lia].
  - by apply Permutation_nil_l.
  - by apply Permutation_singleton_l.
Qed.

Lemma filter_same_key_short k xs :
  NoDup (map item_key xs) → (length (filter (same_key k) xs) ≤ 1)%nat.
Proof.
  induction xs as [|x xs IH]; simpl; [lia|].
  intros [Hx Hnd]%NoDup_cons. specialize (IH Hnd).
  rewrite filter_cons. destruct (decide (same_key k x)) as [Hk|_]; [|done].
  destruct (filter (same_key k) xs) as [|y l] eqn:Hf; [simpl; lia|].
  exfalso. apply Hx.
  assert (y ∈ filter (same_key k) xs) as [Hky Hy]%list_elem_of_filter by (rewrite Hf; left).
  apply list_elem_of_fmap. exists y. split; [|done].
  unfold item_key. destruct Hk as [<- <-], Hky as [-> ->]. done.
Qed.

(** X2. When no two items have both the same kind and the same size, the
    listing does not depend on the order in which the items arrive: two
    inputs with the same items give the same output. *)
Theorem sortItems_order_independent xs ys :
  xs ≡ₚ ys → NoDup (map item_key xs) → sortItems xs = sortItems ys.
Proof.
  intros Hperm Hnd.
  apply sorted_stable_unique; [apply sortItems_sorted..|].
  intros k. rewrite !sortItems_stable.
  apply Permutation_short; [by rewrite Hperm|by apply filter_same_key_short].
Qed.

Lemma sortItems_order_independent_witness :
  [sized "a" 5 false; sized "d" 1 true; sized "b" 7 false]
    ≡ₚ [sized "b" 7 false; sized "a" 5 false; sized "d" 1 true] ∧
  sortItems [sized "a" 5 false; sized "d" 1 true; sized "b" 7 false] =
  sortItems [sized "b" 7 false; sized "a" 5 false; sized "d" 1 true].
Proof.
  assert ([sized "a" 5 false; sized "d" 1 true; sized "b" 7 false]
            ≡ₚ [sized "b" 7 false; sized "a" 5 false; sized "d" 1 true]) as Hperm.
  { etrans; [apply Permutation_skip, Permutation_swap|]. apply Permutation_swap. }
  split; [exact Hperm|].
  apply (sortItems_order_independent _ _ Hperm).
  apply (bool_decide_unpack _). by vm_compute.
Defined.

(** ** The dialog *)

(** X3. When the dialog is dismissed (or gives the empty string) the
    handler returns at once: the listing, the selected folder, the count and
    the loading flag stay as they were and only the error message is
    cleared; no folder is listed and no entry probed.  A controller that was
    registered has been aborted all the same, and stays registered. *)
Theorem dismissed_dialog_keeps_listing w sys selected :
  Tauri.open w = Ok selected → no_selection selected = true →
  (scanFolder w sys).1 = Returned ∧
  appState (scanFolder w sys).2 =
    mkAppState (items (appState sys)) (isLoading (appState sys))
               (selectedFolder (appState sys)) None (scannedCount (appState sys))
               (abortControllerRef (appState sys)) ∧
  trace (scanFolder w sys).2 = trace sys ++ prologue_events (appState sys) ∧
  (∀ c, abortControllerRef (appState sys) = Some c →
        trace (scanFolder w sys).2 = trace sys ++ [CallAbort c; CallOpen]).
Proof.
  intros Hopen Hsel. rewrite (scanFolder_no_selection w sys selected) by done.
  split_and!; try done.
  intros c Hc. cbn [snd trace]. unfold prologue_events. by rewrite Hc.
Qed.

Lemma dismissed_dialog_keeps_listing_witness :
  Tauri.open dismissed_world = Ok None ∧ no_selection None = true ∧
  appState (scanFolder dismissed_world after_earlier_scan).2 = appState after_earlier_scan.
Proof.
  split_and!; [reflexivity|reflexivity|].
  destruct (dismissed_dialog_keeps_listing dismissed_world after_earlier_scan None)
    as (_ & Hstate & _); [reflexivity|reflexivity|].
  exact Hstate.
Defined.

(** X4. When the dialog itself fails, the outer [catch] runs although no
    folder was scanned: the failure message is shown, loading is off and the
    controller reference is cleared, while the listing, the selected folder
    and the count of the earlier scan stay on screen. *)
Theorem rejected_dialog_keeps_listing w sys e :
  Tauri.open w = Err e →
  (scanFolder w sys).1 = Normal () ∧
  items (appState (scanFolder w sys).2) = items (appState sys) ∧
  selectedFolder (appState (scanFolder w sys).2) = selectedFolder (appState sys) ∧
  scannedCount (appState (scanFolder w sys).2) = scannedCount (appState sys) ∧
  error (appState (scanFolder w sys).2) = Some (scan_failed_message e) ∧
  isLoading (appState (scanFolder w sys).2) = false ∧
  abortControllerRef (appState (scanFolder w sys).2) = None ∧
  trace (scanFolder w sys).2 =
    trace sys ++ prologue_events (appState sys) ++ [ConsoleError [e]].
Proof.
  intros Hopen. by rewrite (scanFolder_dialog_rejected w sys e).
Qed.

Lemma rejected_dialog_keeps_listing_witness :
  Tauri.open no_dialog_world = Err "no dialog" ∧
  items (appState (scanFolder no_dialog_world after_earlier_scan).2) = [file_b; file_a] ∧
  error (appState (scanFolder no_dialog_world after_earlier_scan).2) =
    Some "Failed to scan folder: no dialog".
Proof.
  destruct (rejected_dialog_keeps_listing no_dialog_world after_earlier_scan "no dialog")
    as (_ & Hitems & _ & _ & Herr & _); [reflexivity|].
  split_and!; [reflexivity|exact Hitems|exact Herr].
Defined.

(** ** The metadata message, exactly *)

Lemma filter_length_all {A} (P : A → Prop) `{!∀ x, Decision (P x)} (l : list A) :
  length (filter P l) = length l → ∀ x, x ∈ l → P x.
Proof.
  induction l as [|y l IH]; intros Hlen x Hx; [by apply elem_of_nil in Hx|].
  rewrite filter_cons in Hlen. pose proof (length_filter P l) as Hle.
  destruct (decide (P y)) as [Hy|Hy]; simpl in Hlen; [|lia].
  apply elem_of_cons in Hx as [->|Hx]; [done|]. apply IH; [lia|done].
Qed.

(** X5. After a completed scan the metadata message is shown exactly when
    the folder is not empty, no entry is hidden and every probe failed; in
    every other case no error message is shown.  A folder whose only
    readable-looking entries fail still shows no message as soon as it holds
    one hidden entry. *)
Theorem metadata_message_exactly w sys selected entries :
  Tauri.open w = Ok (Some selected) → selected ≠ "" →
  Tauri.readDir w selected = Ok entries →
  not_aborted w 0 (length entries) →
  (error (appState (scanFolder w sys).2) = Some metadata_error ↔
     entries ≠ [] ∧
     ∀ entry, entry ∈ entries → hidden entry = false ∧ readable w selected entry = false) ∧
  (error (appState (scanFolder w sys).2) = Some metadata_error ∨
   error (appState (scanFolder w sys).2) = None).
Proof.
  intros Hopen Hsel Hread Hclear.
  rewrite (scanFolder_completed w sys selected entries) by done.
  cbn [snd appState error].
  assert (nothing_readable w selected entries = true ↔
          entries ≠ [] ∧
          ∀ entry, entry ∈ entries → hidden entry = false ∧ readable w selected entry = false)
    as Hiff.
  { unfold nothing_readable. rewrite !andb_true_iff, Nat.ltb_lt, !Nat.eqb_eq.
    pose proof (listed_items_length w selected entries) as Hlen. split.
    - intros [[Hpos Hnone] Hfail]. rewrite Hnone, Hfail in Hlen. simpl in Hlen.
      split; [by destruct entries; [simpl in Hpos; lia|]|].
      intros entry Hin. symmetry in Hlen.
      pose proof (filter_length_all visible entries Hlen entry Hin) as Hvis.
      split; [exact Hvis|]. unfold readable.
      destruct (probe w selected entry) as [it|] eqn:Hp; [|done].
      assert (it ∈ listed_items w selected entries) as Hit
        by (apply elem_of_listed_items; eauto).
      apply length_zero_iff_nil in Hnone. rewrite Hnone in Hit. by apply elem_of_nil in Hit.
    - intros [Hne Hall].
      assert (listed_items w selected entries = []) as Hnil.
      { destruct (listed_items w selected entries) as [|it l] eqn:Hl; [done|].
        assert (it ∈ listed_items w selected entries) as Hit by (rewrite Hl; left).
        apply elem_of_listed_items in Hit as (entry & Hin & _ & Hp).
        destruct (Hall entry Hin) as [_ Hr]. unfold readable in Hr. by rewrite Hp in Hr. }
      rewrite Hnil, filter_visible_all in Hlen by (intros entry Hin; by apply Hall).
      rewrite Hnil. simpl in *. split_and!; [|done|done].
      destruct entries; [done|simpl; lia]. }
  split.
  - rewrite <- Hiff. destruct (nothing_readable w selected entries); split; done.
  - destruct (nothing_readable w selected entries); [by left|by right].
Qed.

Lemma metadata_message_exactly_witness :
  DirEntry.mk ".DS_Store" false ∈ [DirEntry.mk ".DS_Store" false; DirEntry.mk "locked" false] ∧
  error (appState (scanFolder
                     (with_listing sample_world
                        [DirEntry.mk ".DS_Store" false; DirEntry.mk "locked" false])
                     mounted).2) ≠ Some metadata_error ∧
  error (appState (scanFolder (with_listing sample_world [DirEntry.mk "locked" false])
                              mounted).2) = Some metadata_error.
Proof.
  split; [left|]. split.
  - destruct (metadata_message_exactly
                (with_listing sample_world
                   [DirEntry.mk ".DS_Store" false; DirEntry.mk "locked" false])
                mounted "/d" [DirEntry.mk ".DS_Store" false; DirEntry.mk "locked" false])
      as [[Hmsg _] _]; [reflexivity|discriminate|reflexivity|by intros j _|].
    intros Herr. destruct (Hmsg Herr) as [_ Hall].
    destruct (Hall (DirEntry.mk ".DS_Store" false)) as [Hvis _]; [left|]. discriminate Hvis.
  - destruct (metadata_message_exactly
                (with_listing sample_world [DirEntry.mk "locked" false])
                mounted "/d" [DirEntry.mk "locked" false])
      as [[_ Hmsg] _]; [reflexivity|discriminate|reflexivity|by intros j _|].
    apply Hmsg. split; [done|].
    intros entry ->%list_elem_of_singleton. split; reflexivity.
Defined.

(** ** The calls of a completed scan *)

Lemma joined_names_app t1 t2 : joined_names (t1 ++ t2) = joined_names t1 ++ joined_names t2.
Proof. apply flat_map_app. Qed.

Lemma sized_paths_app t1 t2 : sized_paths (t1 ++ t2) = sized_paths t1 ++ sized_paths t2.
Proof. apply flat_map_app. Qed.

Lemma scan_events_calls w selected entries :
  joined_names (scan_events w selected entries) =
    map DirEntry.name (filter visible entries) ∧
  sized_paths (scan_events w selected entries) =
    flat_map (joined_path w selected) (filter visible entries).
Proof.
  unfold scan_events. induction entries as [|e rest [IHj IHs]]; [done|].
  cbn [flat_map]. rewrite joined_names_app, sized_paths_app, IHj, IHs, filter_cons.
  unfold entry_events.
  destruct (decide (visible e)) as [Hv|Hv]; unfold visible in Hv.
  - rewrite Hv. cbn [flat_map map]. unfold probe_events, console_line.
    destruct (Tauri.join w selected (DirEntry.name e)) as [p|] eqn:Hj;
      unfold joined_path; rewrite Hj; [|split; reflexivity].
    destruct (Tauri.size w p); split; reflexivity.
  - apply not_false_is_true in Hv. rewrite Hv. split; reflexivity.
Qed.

(** X6. A completed scan calls [join] once for every entry that is not
    hidden, in the order of the listing and with the name of the entry, and
    calls [size] once for every path that [join] returned, in the same
    order; it makes no other [join] or [size] call. *)
Theorem every_visible_entry_probed_once w sys selected entries :
  Tauri.open w = Ok (Some selected) → selected ≠ "" →
  Tauri.readDir w selected = Ok entries →
  not_aborted w 0 (length entries) →
  joined_names (trace (scanFolder w sys).2) =
    joined_names (trace sys) ++ map DirEntry.name (filter visible entries) ∧
  sized_paths (trace (scanFolder w sys).2) =
    sized_paths (trace sys) ++ flat_map (joined_path w selected) (filter visible entries).
Proof.
  intros Hopen Hsel Hread Hclear.
  rewrite (scanFolder_completed w sys selected entries) by done.
  cbn [snd trace].
  destruct (scan_events_calls w selected entries) as [Hj Hs].
  rewrite !joined_names_app, !sized_paths_app.
  change (CallReadDir selected :: scan_events w selected entries)
    with ([CallReadDir selected] ++ scan_events w selected entries).
  rewrite joined_names_app, sized_paths_app, Hj, Hs.
  unfold prologue_events. by destruct (abortControllerRef (appState sys)).
Qed.

Lemma every_visible_entry_probed_once_witness :
  not_aborted sample_world 0 (length sample_entries) ∧
  joined_names (trace (scanFolder sample_world mounted).2) = ["a.txt"; "sub"; "locked"] ∧
  sized_paths (trace (scanFolder sample_world mounted).2) = ["/d/a.txt"; "/d/sub"; "/d/locked"].
Proof.
  split; [apply sample_world_clear|].
  apply (every_visible_entry_probed_once sample_world mounted "/d" sample_entries);
    [reflexivity|discriminate|reflexivity|apply sample_world_clear].
Defined.

(** ** The listing on screen while the loop runs *)

Lemma div_succ_not_multiple p :
  (S p mod BATCH_SIZE ≠ 0)%nat → (S p / BATCH_SIZE = p / BATCH_SIZE)%nat.
Proof.
  unfold BATCH_SIZE. intros Hmod.
  pose proof (Nat.div_mod_eq p 50) as Hp.
  assert (p mod 50 < 50)%nat as Hr by (apply Nat.mod_upper_bound; lia).
  symmetry. apply Nat.div_unique with (r := S (p mod 50)); [|lia].
  destruct (decide (S (p mod 50) = 50)%nat) as [Heq|]; [|lia].
  exfalso. apply Hmod.
  replace (S p) with (S (p / 50) * 50)%nat by lia. apply Nat.Div0.mod_mul.
Qed.

(** The loop keeps on screen the sorted prefix of the items read so far that
    [displayed_count] gives. *)
Lemma scan_entries_display w selected total entries : ∀ i loc sys loc' sys',
  not_aborted w i (length entries) → (i + length entries ≤ total)%nat →
  processedCount loc = length (newItems loc) → (processedCount loc ≤ i)%nat →
  items (appState sys) =
    sortItems (take (displayed_count total (processedCount loc)) (newItems loc)) →
  scan_entries w selected total i entries loc sys = (Normal loc', sys') →
  processedCount loc' = length (newItems loc') ∧
  items (appState sys') =
    sortItems (take (displayed_count total (processedCount loc')) (newItems loc')).
Proof.
  induction entries as [|entry rest IH]; intros i loc sys loc' sys' Hclear Htot Hlen Hle Hinv Hrun.
  - cbn in Hrun. by injection Hrun as <- <-.
  - apply not_aborted_cons in Hclear as [Hi Hrest]. cbn [scan_entries] in Hrun.
    rewrite Hi in Hrun. cbn [length] in Htot.
    destruct (startsWith (DirEntry.name entry) ".").
    { eapply (IH (S i)); [done|lia|done|lia|done|done]. }
    unfold bind in Hrun. rewrite probe_entry_run in Hrun.
    destruct (probe w selected entry) as [it|e].
    + eapply (IH (S i)); [done|lia| | | |exact Hrun];
        cbn [newItems processedCount appState after_push items].
      * rewrite length_app. simpl. lia.
      * lia.
      * assert (length (newItems loc ++ [it]) = S (processedCount loc)) as Hlen'
          by (rewrite length_app; simpl; lia).
        destruct (Nat.eqb_spec (S (processedCount loc) mod BATCH_SIZE) 0) as [Hmod|Hmod];
          [|destruct (Nat.eqb_spec (S (processedCount loc)) total) as [Hlast|Hlast]];
          cbn [orb].
        -- f_equal. rewrite take_ge; [done|]. rewrite Hlen'. unfold displayed_count.
           destruct (_ =? _)%nat; [done|].
           apply Nat.Div0.div_exact in Hmod. lia.
        -- f_equal. rewrite take_ge; [done|]. rewrite Hlen'. unfold displayed_count.
           by rewrite (proj2 (Nat.eqb_eq _ _) Hlast).
        -- rewrite Hinv. f_equal. unfold displayed_count.
           rewrite (proj2 (Nat.eqb_neq _ _) Hlast).
           rewrite (proj2 (Nat.eqb_neq (processedCount loc) total)) by lia.
           rewrite div_succ_not_multiple by done.
           rewrite take_app_le; [done|].
           rewrite <- Hlen. apply Nat.Div0.mul_div_le.
    + eapply (IH (S i)); [done|lia| | | |exact Hrun];
        cbn [newItems processedCount appState]; [done|lia|done].
Qed.

(** The aborted handler ends in the state the loop had reached. *)
Lemma scanFolder_aborted_loop w sys selected pre entry post :
  Tauri.open w = Ok (Some selected) → selected ≠ "" →
  Tauri.readDir w selected = Ok (pre ++ entry :: post) →
  not_aborted w 0 (length pre) →
  Tauri.signal_aborted w (length pre) = true →
  ∃ t,
    (scanFolder w sys).2 =
      (scan_entries w selected (length (pre ++ entry :: post)) 0 pre (mkLocals [] 0 0)
         (mkSys (mkAppState [] true (Some selected) None 0
                            (Some (Tauri.new_AbortController w))) t)).2.
Proof.
  intros Hopen Hsel Hread Hclear Hab. run_handler. rewrite Hopen.
  unfold no_selection. rewrite bool_decide_eq_false_2 by done. rewrite Hread.
  destruct (abortControllerRef (appState sys)) as [c|];
    cbn [appState trace abortControllerRef items isLoading selectedFolder error scannedCount];
    rewrite scan_entries_aborted by done; eexists; reflexivity.
Qed.

Lemma listed_items_at_most w selected entries :
  (length (listed_items w selected entries) ≤ length entries)%nat.
Proof.
  pose proof (listed_items_length w selected entries) as Hlen.
  pose proof (length_filter visible entries). lia.
Qed.

(** X7. The listing on screen grows in whole batches of fifty.  When the
    scan is aborted, it shows the first [50 * (n / 50)] of the [n] items read
    so far, sorted; with fewer than fifty items read it is empty, although
    the count beside the spinner says [n]. *)
Theorem aborted_scan_shows_whole_batches w sys selected pre entry post :
  Tauri.open w = Ok (Some selected) → selected ≠ "" →
  Tauri.readDir w selected = Ok (pre ++ entry :: post) →
  not_aborted w 0 (length pre) →
  Tauri.signal_aborted w (length pre) = true →
  items (appState (scanFolder w sys).2) =
    sortItems (take (BATCH_SIZE * (length (listed_items w selected pre) / BATCH_SIZE))
                    (listed_items w selected pre)) ∧
  scannedCount (appState (scanFolder w sys).2) = length (listed_items w selected pre) ∧
  ((length (listed_items w selected pre) < BATCH_SIZE)%nat →
   items (appState (scanFolder w sys).2) = []).
Proof.
  intros Hopen Hsel Hread Hclear Hab.
  destruct (scanFolder_aborted w sys selected pre entry post Hopen Hsel Hread Hclear Hab)
    as (a0 & Hrun0 & _ & _ & _ & _ & Hcount & _).
  destruct (scanFolder_aborted_loop w sys selected pre entry post Hopen Hsel Hread Hclear Hab)
    as (t & Hfinal).
  set (total := length (pre ++ entry :: post)) in *.
  set (s0 := mkSys (mkAppState [] true (Some selected) None 0
                               (Some (Tauri.new_AbortController w))) t) in *.
  destruct (scan_entries_run w selected total pre 0 (mkLocals [] 0 0) s0 Hclear)
    as (a' & Hrun & _).
  assert (0 + length pre ≤ total)%nat as Htot.
  { unfold total. rewrite length_app. simpl. lia. }
  assert (items (appState s0) =
          sortItems (take (displayed_count total 0) [])) as Hinit.
  { by rewrite take_nil. }
  pose proof (scan_entries_display w selected total pre 0 (mkLocals [] 0 0) s0 _ _
                Hclear Htot eq_refl (Nat.le_refl 0) Hinit Hrun) as [_ Hshown].
  rewrite Hfinal, Hrun. cbn [snd appState newItems processedCount] in *.
  rewrite app_nil_l, Nat.add_0_l in Hshown.
  assert (displayed_count total (length (listed_items w selected pre)) =
          (BATCH_SIZE * (length (listed_items w selected pre) / BATCH_SIZE))%nat) as Hd.
  { unfold displayed_count. rewrite (proj2 (Nat.eqb_neq _ _)); [done|].
    pose proof (listed_items_at_most w selected pre). unfold total.
    rewrite length_app. simpl. lia. }
  rewrite Hd in Hshown.
  split_and!.
  - exact Hshown.
  - rewrite Hrun0 in Hfinal. rewrite Hrun in Hfinal. cbn [snd] in Hfinal.
    injection Hfinal as <- _. exact Hcount.
  - intros Hsmall. rewrite Hshown. rewrite Nat.div_small by done.
    rewrite Nat.mul_0_r. reflexivity.
Qed.

Lemma aborted_scan_shows_whole_batches_witness :
  Tauri.readDir sixty_files_world "/d" =
    Ok (replicate 55 (DirEntry.mk "f" false)
          ++ DirEntry.mk "f" false :: replicate 4 (DirEntry.mk "f" false)) ∧
  not_aborted sixty_files_world 0 55 ∧
  Tauri.signal_aborted sixty_files_world 55 = true ∧
  items (appState (scanFolder sixty_files_world mounted).2) =
    replicate 50 (FileSystemItem.mk "f" "/d/f" 7 false) ∧
  scannedCount (appState (scanFolder sixty_files_world mounted).2) = 55%nat.
Proof.
  assert (not_aborted sixty_files_world 0 55) as Hclear.
  { intros j Hj. simpl. apply bool_decide_eq_false_2. lia. }
  destruct (aborted_scan_shows_whole_batches sixty_files_world mounted "/d"
              (replicate 55 (DirEntry.mk "f" false)) (DirEntry.mk "f" false)
              (replicate 4 (DirEntry.mk "f" false)))
    as (Hitems & Hcount & _); [reflexivity|discriminate|reflexivity|exact Hclear|reflexivity|].
  split_and!; [reflexivity|exact Hclear|reflexivity| |].
  - rewrite Hitems. by vm_compute.
  - rewrite Hcount. by vm_compute.
Defined.

(** ** [handleReveal] and the states the component reaches *)

Lemma handleReveal_run revealItemInDir path sys :
  handleReveal revealItemInDir path sys =
  match revealItemInDir path with
  | Ok _ => (Normal (), sys)
  | Err e =>
    (Normal (),
     mkSys (mkAppState (items (appState sys)) (isLoading (appState sys))
                       (selectedFolder (appState sys)) (Some (reveal_failed_message e))
                       (scannedCount (appState sys)) (abortControllerRef (appState sys)))
           (trace sys ++ [ConsoleError [e]]))
  end.
Proof.
  unfold handleReveal, try_catch, settle, bind, setError, modify, emit.
  destruct (revealItemInDir path) as [[]|e]; reflexivity.
Qed.

Lemma scan_events_no_abort w selected entries ev :
  ev ∈ scan_events w selected entries → is_abort ev = false.
Proof.
  intros (entry & _ & _ & Hev)%elem_of_scan_events.
  apply elem_of_probe_events in Hev. by destruct ev.
Qed.

(** With no controller registered, the handler calls no [abort]; and it
    leaves a controller registered only with the loading flag set. *)
Lemma scanFolder_controller w s :
  (abortControllerRef (appState s) = None ∨ isLoading (appState s) = true) →
  (abortControllerRef (appState (scanFolder w s).2) = None ∨
   isLoading (appState (scanFolder w s).2) = true) ∧
  (abortControllerRef (appState s) = None →
   ∃ evs, trace (scanFolder w s).2 = trace s ++ evs ∧ ∀ ev, ev ∈ evs → is_abort ev = false).
Proof.
  intros Hinv.
  assert (abortControllerRef (appState s) = None →
          ∀ ev, ev ∈ prologue_events (appState s) → is_abort ev = false) as Hpro.
  { intros Hnone ev. unfold prologue_events. rewrite Hnone.
    by intros ->%list_elem_of_singleton. }
  destruct (Tauri.open w) as [sel|e] eqn:Hopen.
  - destruct (no_selection sel) eqn:Hsel.
    { rewrite (scanFolder_no_selection w s sel) by done. cbn [snd appState trace
        abortControllerRef isLoading]. split; [done|].
      intros Hnone. eexists. split; [done|]. by apply Hpro. }
    destruct sel as [selected|]; [|done].
    apply bool_decide_eq_false_1 in Hsel.
    destruct (Tauri.readDir w selected) as [entries|e] eqn:Hread.
    + split.
      * destruct (first_abort w (length entries)) as [Hclear|(k & Hk & Hclear & Hab)].
        -- rewrite (scanFolder_completed w s selected entries) by done. by left.
        -- destruct (split_at_index entries k Hk) as (x & Hsplit & Hlen).
           rewrite Hsplit in Hread. rewrite <- Hlen in Hclear, Hab.
           destruct (scanFolder_aborted w s selected _ _ _ Hopen Hsel Hread Hclear Hab)
             as (a' & -> & HL & _). by right.
      * intros Hnone.
        destruct (scanFolder_listed w s selected entries Hopen Hsel Hread)
          as (pre & post & _ & -> & _).
        eexists. split; [done|]. intros ev [Hev|Hev]%elem_of_app; [by apply Hpro|].
        apply elem_of_cons in Hev as [->|Hev]; [done|].
        by eapply scan_events_no_abort.
    + rewrite (scanFolder_root_unreadable w s selected e) by done. split; [by left|].
      intros Hnone. eexists. split; [done|].
      intros ev [Hev|Hev]%elem_of_app; [by apply Hpro|].
      apply elem_of_cons in Hev as [->|Hev]; [done|].
      by apply list_elem_of_singleton in Hev as ->.
  - rewrite (scanFolder_dialog_rejected w s e) by done. split; [by left|].
    intros Hnone. eexists. split; [done|].
    intros ev [Hev|Hev]%elem_of_app; [by apply Hpro|].
    by apply list_elem_of_singleton in Hev as ->.
Qed.

(** X8. In every state the component reaches when each handler finishes
    before the next starts, a registered abort controller comes with the
    loading flag, that is, with the button disabled.  So a click on the
    enabled button starts a scan that never calls [abort]. *)
Theorem enabled_button_never_aborts exponential s :
  reachable exponential s →
  (abortControllerRef (appState s) = None ∨ isLoading (appState s) = true) ∧
  (button_disabled (render exponential (appState s)) = false →
   ∀ w, ∃ evs,
     trace (scanFolder w s).2 = trace s ++ evs ∧ ∀ ev, ev ∈ evs → is_abort ev = false).
Proof.
  intros Hreach.
  assert (abortControllerRef (appState s) = None ∨ isLoading (appState s) = true) as Hinv.
  { induction Hreach as [|w s _ IH _|reveal header rows row s _ IH _ _].
    - by left.
    - by apply scanFolder_controller.
    - rewrite handleReveal_run. by destruct (reveal (row_onDoubleClick row)). }
  split; [exact Hinv|].
  intros Henabled w. cbn in Henabled.
  apply scanFolder_controller; [done|].
  destruct Hinv as [Hnone|Hload]; [done|congruence].
Qed.

Lemma enabled_button_never_aborts_witness :
  reachable (λ _ _, "") (scanFolder sample_world mounted).2 ∧
  button_disabled (render (λ _ _, "") (appState (scanFolder sample_world mounted).2)) = false ∧
  ∃ evs,
    trace (scanFolder mixed_world (scanFolder sample_world mounted).2).2 =
      trace (scanFolder sample_world mounted).2 ++ evs ∧
    ∀ ev, ev ∈ evs → is_abort ev = false.
Proof.
  assert (reachable (λ _ _, "") (scanFolder sample_world mounted).2) as Hreach.
  { apply reachable_scanFolder; [apply reachable_mounted|reflexivity]. }
  split_and!; [exact Hreach|reflexivity|].
  destruct (enabled_button_never_aborts (λ _ _, "") _ Hreach) as [_ Hclick].
  apply (Hclick eq_refl mixed_world).
Defined.

(** X9. [handleReveal] always completes and changes nothing but the error
    message: the button, the line of the selected folder and the listing are
    rendered as before.  When the opener succeeds the state is untouched, an
    earlier error message included; when it fails, the error box shows the
    failure and the message of the empty folder is not shown. *)
Theorem handleReveal_changes_only_the_error exponential revealItemInDir path s :
  (handleReveal revealItemInDir path s).1 = Normal () ∧
  button_disabled (render exponential (appState (handleReveal revealItemInDir path s).2)) =
    button_disabled (render exponential (appState s)) ∧
  button_label (render exponential (appState (handleReveal revealItemInDir path s).2)) =
    button_label (render exponential (appState s)) ∧
  selected_line (render exponential (appState (handleReveal revealItemInDir path s).2)) =
    selected_line (render exponential (appState s)) ∧
  listing (render exponential (appState (handleReveal revealItemInDir path s).2)) =
    listing (render exponential (appState s)) ∧
  (revealItemInDir path = Ok () → (handleReveal revealItemInDir path s).2 = s) ∧
  (∀ e, revealItemInDir path = Err e →
     error_box (render exponential (appState (handleReveal revealItemInDir path s).2)) =
       Some (reveal_failed_message e) ∧
     empty_message (render exponential (appState (handleReveal revealItemInDir path s).2)) =
       false).
Proof.
  rewrite handleReveal_run.
  destruct (revealItemInDir path) as [[]|e]; cbn [fst snd appState];
    (split_and!; [done|done|done|done|done|done|]).
  - intros e [=].
  - intros e' [= <-]. unfold render. cbn [error error_box empty_message truthy].
    assert (bool_decide (reveal_failed_message e = "") = false) as ->
      by (by apply bool_decide_eq_false_2).
    cbn. split; [done|]. by rewrite andb_false_r.
Qed.

Lemma handleReveal_changes_only_the_error_witness :
  error_box (render (λ _ _, "")
               (appState (handleReveal (λ _, Err "not found") "/d/a.txt"
                            (scanFolder sample_world mounted).2).2)) =
    Some "Failed to reveal item: not found" ∧
  appState (handleReveal (λ _, Ok ()) "/d/a.txt" after_earlier_scan).2 =
    appState after_earlier_scan.
Proof.
  split.
  - destruct (handleReveal_changes_only_the_error (λ _ _, "") (λ _, Err "not found")
                "/d/a.txt" (scanFolder sample_world mounted).2)
      as (_ & _ & _ & _ & _ & _ & Hfail).
    destruct (Hfail "not found" eq_refl) as [Hbox _]. exact Hbox.
  - destruct (handleReveal_changes_only_the_error (λ _ _, "") (λ _, Ok ())
                "/d/a.txt" after_earlier_scan) as (_ & _ & _ & _ & _ & Hsame & _).
    by rewrite (Hsame eq_refl).
Defined.

(** ** The rows *)

Lemma has_dash_pretty_N_go x : ∀ s, has_dash s = false → has_dash (pretty_N_go x s) = false.
Proof.
  induction (N.lt_wf_0 x) as [x _ IH]; intros s Hs.
  assert (x = 0 ∨ 0 < x)%N as [->|Hpos] by lia.
  - by rewrite pretty_N_go_0.
  - rewrite pretty_N_go_step by done. apply IH; [by apply N.div_lt|].
    cbn [has_dash]. rewrite Hs, orb_false_r. apply bool_decide_eq_false_2.
    unfold pretty_N_char. by repeat case_match.
Qed.

Lemma has_dash_pretty_nat (n : nat) : has_dash (pretty (Z.of_nat n)) = false.
Proof.
  destruct n as [|n]; [done|].
  change (has_dash (pretty (N.pos (Pos.of_succ_nat n))) = false).
  unfold pretty, pretty_N. rewrite decide_False by done. by apply has_dash_pretty_N_go.
Qed.

Lemma has_dash_app p d : has_dash (p +:+ "-" +:+ d) = true.
Proof. induction p as [|c p IH]; [done|]. simpl. by rewrite IH, orb_true_r. Qed.

(** The text after the last dash decides: two keys with different numbers
    differ, whatever the paths. *)
Lemma dash_suffix_inj p q d e :
  has_dash d = false → has_dash e = false →
  p +:+ "-" +:+ d = q +:+ "-" +:+ e → d = e.
Proof.
  intros Hd He. revert q. induction p as [|c p IH]; intros [|c' q] Heq; cbn in Heq.
  - by injection Heq.
  - injection Heq as _ Heq. change (d = q +:+ "-" +:+ e) in Heq.
    pose proof (has_dash_app q e) as Hq. congruence.
  - injection Heq as _ Heq. change (p +:+ "-" +:+ d = e) in Heq.
    pose proof (has_dash_app p d) as Hp. congruence.
  - injection Heq as _ Heq. by apply (IH q).
Qed.

Lemma Number_toString_index exponential (i : nat) :
  Z.of_nat i ≤ 2 ^ 32 → Number_toString exponential (Z.of_nat i) = pretty (Z.of_nat i).
Proof.
  intros Hi. unfold Number_toString.
  destruct (Z.ltb_spec (Z.abs (Z.of_nat i)) (10 ^ 21)) as [|Hbig]; [done|].
  change (2 ^ 32) with 4294967296 in Hi.
  change (10 ^ 21) with 1000000000000000000000 in Hbig. lia.
Qed.

(** X10. The keys of the rows are pairwise distinct, also when two items
    have the same path: the key ends in the index of the row, written after
    the last dash.  There is one row per item, in the order of the items,
    and a double click on a row reveals the path of its item. *)
Theorem row_keys_distinct exponential a header rows :
  Z.of_nat (length (items a)) ≤ 2 ^ 32 →
  listing (render exponential a) = Some (header, rows) →
  NoDup (map row_key rows) ∧
  map row_name rows = map FileSystemItem.name (items a) ∧
  map row_onDoubleClick rows = map FileSystemItem.path (items a).
Proof.
  intros Hlen. unfold render. cbn [listing].
  destruct (0 <? length (items a))%nat; [|done]. intros [= _ <-].
  split_and!.
  - apply NoDup_alt. intros i j key Hi Hj.
    rewrite list_lookup_fmap, list_lookup_imap in Hi, Hj.
    destruct (items a !! i) as [x|] eqn:Hx; [|done].
    destruct (items a !! j) as [y|] eqn:Hy; [|done].
    apply lookup_lt_Some in Hx, Hy.
    cbn in Hi, Hj. injection Hi as Hi. injection Hj as Hj. rewrite <- Hj in Hi.
    rewrite !Number_toString_index in Hi by lia.
    apply dash_suffix_inj in Hi; [|apply has_dash_pretty_nat..].
    apply (inj pretty) in Hi. lia.
  - apply list_eq. intros i.
    rewrite !list_lookup_fmap, list_lookup_imap. by destruct (items a !! i).
  - apply list_eq. intros i.
    rewrite !list_lookup_fmap, list_lookup_imap. by destruct (items a !! i).
Qed.

Lemma row_keys_distinct_witness :
  listing (render (λ _ _, "")
             (mkAppState [file_a; file_a] false (Some "/d") None 2 None)) =
    Some ("2 items found",
          [mkRow "/d/a.txt-0" File "a.txt" "10 Bytes" "/d/a.txt";
           mkRow "/d/a.txt-1" File "a.txt" "10 Bytes" "/d/a.txt"]) ∧
  NoDup ["/d/a.txt-0"; "/d/a.txt-1"].
Proof.
  split; [reflexivity|].
  apply (row_keys_distinct (λ _ _, "")
           (mkAppState [file_a; file_a] false (Some "/d") None 2 None)
           "2 items found"
           [mkRow "/d/a.txt-0" File "a.txt" "10 Bytes" "/d/a.txt";
            mkRow "/d/a.txt-1" File "a.txt" "10 Bytes" "/d/a.txt"]);
    [by vm_compute|reflexivity].
Defined.

(** ** What is on screen after a scan *)

(** X11. After a completed scan the button is enabled again and exactly
    one of three things is shown below the selected folder: the listing,
    with the number of items read in its header and the rows in sorted
    order, when some entry was read; the metadata message when the guard of
    that message holds; the message of the empty folder otherwise. *)
Theorem completed_scan_shows_one_panel exponential w sys selected entries :
  Tauri.open w = Ok (Some selected) → selected ≠ "" →
  Tauri.readDir w selected = Ok entries →
  not_aborted w 0 (length entries) →
  button_disabled (render exponential (appState (scanFolder w sys).2)) = false ∧
  button_label (render exponential (appState (scanFolder w sys).2)) = "Select Folder" ∧
  selected_line (render exponential (appState (scanFolder w sys).2)) = Some selected ∧
  (listed_items w selected entries ≠ [] →
     listing (render exponential (appState (scanFolder w sys).2)) =
       Some (Number_toString exponential (Z.of_nat (length (listed_items w selected entries)))
               +:+ " items found",
             imap (render_row exponential) (sortItems (listed_items w selected entries))) ∧
     error_box (render exponential (appState (scanFolder w sys).2)) = None ∧
     empty_message (render exponential (appState (scanFolder w sys).2)) = false) ∧
  (listed_items w selected entries = [] → nothing_readable w selected entries = true →
     listing (render exponential (appState (scanFolder w sys).2)) = None ∧
     error_box (render exponential (appState (scanFolder w sys).2)) = Some metadata_error ∧
     empty_message (render exponential (appState (scanFolder w sys).2)) = false) ∧
  (listed_items w selected entries = [] → nothing_readable w selected entries = false →
     listing (render exponential (appState (scanFolder w sys).2)) = None ∧
     error_box (render exponential (appState (scanFolder w sys).2)) = None ∧
     empty_message (render exponential (appState (scanFolder w sys).2)) = true).
Proof.
  intros Hopen Hsel Hread Hclear.
  rewrite (scanFolder_completed w sys selected entries) by done.
  cbn [snd appState]. unfold render.
  cbn [button_disabled button_label selected_line listing error_box empty_message
       items isLoading selectedFolder error scannedCount truthy].
  assert (bool_decide (selected = "") = false) as -> by (by apply bool_decide_eq_false_2).
  unfold sortItems at 1 2 3 4 5 6. rewrite !Array_sort_length.
  split_and!; try done.
  - intros Hne. destruct (listed_items w selected entries) as [|it l] eqn:Hl; [done|].
    unfold nothing_readable. rewrite Hl. cbn. by rewrite andb_false_r.
  - intros -> ->. done.
  - intros -> ->. done.
Qed.

Lemma completed_scan_shows_one_panel_witness :
  not_aborted sample_world 0 (length sample_entries) ∧
  listed_items sample_world "/d" sample_entries ≠ [] ∧
  listing (render (λ _ _, "") (appState (scanFolder sample_world mounted).2)) =
    Some ("2 items found",
          [mkRow "/d/sub-0" Folder "sub" "4.00 KB" "/d/sub";
           mkRow "/d/a.txt-1" File "a.txt" "100 Bytes" "/d/a.txt"]) ∧
  empty_message (render (λ _ _, "")
                   (appState (scanFolder (with_listing sample_world []) mounted).2)) = true.
Proof.
  assert (listed_items sample_world "/d" sample_entries ≠ []) as Hne by discriminate.
  split_and!; [apply sample_world_clear|exact Hne| |].
  - destruct (completed_scan_shows_one_panel (λ _ _, "") sample_world mounted "/d"
                sample_entries) as (_ & _ & _ & Hlist & _);
      [reflexivity|discriminate|reflexivity|apply sample_world_clear|].
    destruct (Hlist Hne) as [-> _]. by vm_compute.
  - destruct (completed_scan_shows_one_panel (λ _ _, "") (with_listing sample_world [])
                mounted "/d" []) as (_ & _ & _ & _ & _ & Hempty);
      [reflexivity|discriminate|reflexivity|by intros j _|].
    by destruct (Hempty eq_refl eq_refl) as (_ & _ & ->).
Defined.

(** ** The digits of [formatFileSize] *)

Lemma string_app_cons c s t : String c s +:+ t = String c (s +:+ t).
Proof. reflexivity. Qed.

Lemma string_app_assoc s t u : (s +:+ t) +:+ u = s +:+ t +:+ u.
Proof.
  induction s as [|c s IH]; [reflexivity|].
  rewrite !string_app_cons. by rewrite IH.
Qed.

Lemma string_length_app s t :
  String.length (s +:+ t) = (String.length s + String.length t)%nat.
Proof.
  induction s as [|c s IH]; [reflexivity|].
  rewrite string_app_cons. simpl. by rewrite IH.
Qed.

Lemma substring_prefix s t : String.substring 0 (String.length s) (s +:+ t) = s.
Proof.
  induction s as [|c s IH]; [by destruct t|].
  rewrite string_app_cons. simpl. by rewrite IH.
Qed.

Lemma substring_suffix s t m :
  String.substring (String.length s) m (s +:+ t) = String.substring 0 m t.
Proof.
  induction s as [|c s IH]; [reflexivity|].
  rewrite string_app_cons. simpl. by rewrite IH.
Qed.

Lemma pretty_N_go_app x : ∀ s, pretty_N_go x s = pretty_N_go x "" +:+ s.
Proof.
  induction (N.lt_wf_0 x) as [x _ IH]; intros s.
  assert (x = 0 ∨ 0 < x)%N as [->|Hpos] by lia.
  - by rewrite !pretty_N_go_0.
  - assert (x `div` 10 < x)%N as Hlt by (by apply N.div_lt).
    rewrite (pretty_N_go_step x s), (pretty_N_go_step x "") by done.
    rewrite (IH _ Hlt (String _ s)), (IH _ Hlt (String _ "")).
    by rewrite string_app_assoc.
Qed.

Lemma pretty_N_digit (x : N) : (x < 10)%N → pretty x = digit x.
Proof.
  intros Hx. unfold pretty, pretty_N, digit. case_decide as H0; [by subst|].
  rewrite pretty_N_go_step by lia.
  rewrite N.div_small, N.mod_small by done. by rewrite pretty_N_go_0.
Qed.

Lemma pretty_N_tens (x : N) :
  (10 ≤ x)%N → pretty x = pretty (x `div` 10)%N +:+ digit (x `mod` 10)%N.
Proof.
  intros Hx. unfold pretty, pretty_N, digit.
  assert (x `div` 10 ≠ 0)%N as Hq.
  { intros Hq. apply N.div_small_iff in Hq; lia. }
  rewrite !decide_False by (done || lia).
  rewrite pretty_N_go_step by lia. by rewrite pretty_N_go_app.
Qed.

Lemma pretty_N_nonempty (x : N) : (1 ≤ String.length (pretty x))%nat.
Proof.
  destruct (decide (x < 10)%N) as [Hx|Hx].
  - by rewrite pretty_N_digit.
  - rewrite pretty_N_tens, string_length_app by lia. simpl. lia.
Qed.

(** The digits [toFixed(2)] writes for [n] hundredths: the integer part, the
    point, two decimals. *)
Lemma fixed_digits (n : Z) :
  0 ≤ n →
  (let m := if n =? 0 then "0" else pretty n in
   let k := String.length m in
   let m := if (k <=? 2)%nat then zeros (3 - k) +:+ m else m in
   let k := String.length m in
   String.substring 0 (k - 2) m +:+ "." +:+ String.substring (k - 2) 2 m) =
  two_decimals (Z.to_N n).
Proof.
  intros Hn.
  assert ((if n =? 0 then "0" else pretty n) = pretty (Z.to_N n)) as ->.
  { by destruct n. }
  generalize (Z.to_N n). clear n Hn. intros x. unfold two_decimals. cbv zeta.
  destruct (decide (x < 10)%N) as [H10|H10].
  { rewrite pretty_N_digit by done.
    rewrite (N.div_small x 100), (N.div_small x 10), (N.mod_small x 10) by lia.
    reflexivity. }
  destruct (decide (x < 100)%N) as [H100|H100].
  { rewrite (pretty_N_tens x), (pretty_N_digit (x `div` 10)%N)
      by (try apply N.Div0.div_lt_upper_bound; lia).
    rewrite (N.div_small x 100), (N.mod_small (x `div` 10)%N 10)
      by (try apply N.Div0.div_lt_upper_bound; lia).
    reflexivity. }
  assert ((x `div` 10) `div` 10 = x `div` 100)%N as Hdiv by (by rewrite N.Div0.div_div).
  assert (10 ≤ x `div` 10)%N as Hq by (apply N.div_le_lower_bound; lia).
  rewrite (pretty_N_tens x), (pretty_N_tens (x `div` 10)%N), Hdiv by lia.
  set (P := pretty (x `div` 100)%N).
  pose proof (pretty_N_nonempty (x `div` 100)%N) as HP. fold P in HP.
  rewrite string_app_assoc.
  assert (String.length (P +:+ digit ((x `div` 10) `mod` 10)%N +:+ digit (x `mod` 10)%N)
          = (String.length P + 2)%nat) as Hlen.
  { rewrite string_length_app. reflexivity. }
  rewrite Hlen.
  rewrite (proj2 (Nat.leb_gt _ _)) by lia.
  rewrite Hlen. replace (String.length P + 2 - 2)%nat with (String.length P) by lia.
  rewrite substring_prefix, substring_suffix. reflexivity.
Qed.

Lemma toFixed2_digits exponential num den :
  0 ≤ num → 0 < den → num < 10 ^ 21 * den →
  toFixed2 exponential num den = two_decimals (Z.to_N (hundredths num den)).
Proof.
  intros Hnum Hden Hsmall. unfold toFixed2, hundredths.
  rewrite (proj2 (Z.ltb_ge _ _)) by done. rewrite (Z.abs_eq num) by done.
  rewrite (proj2 (Z.leb_gt _ _)) by done.
  cbv zeta. rewrite <- (fixed_digits ((200 * num + den) `div` (2 * den)));
    [reflexivity|].
  apply Z.div_pos; lia.
Qed.

Lemma hundredths_nearest num den :
  0 ≤ num → 0 < den →
  2 * den * hundredths num den ≤ 200 * num + den < 2 * den * (hundredths num den + 1).
Proof.
  intros Hnum Hden. unfold hundredths. rewrite (Z.abs_eq num) by done.
  pose proof (Z.mul_div_le (200 * num + den) (2 * den)).
  pose proof (Z.mul_succ_div_gt (200 * num + den) (2 * den)). lia.
Qed.

(** X12. The number [formatFileSize] shows in KB, MB or GB is the quotient
    by the unit rounded to the nearest hundredth, a half rounding up, written
    as integer part, point and two decimals.  In KB and in MB it lies
    between [1.00] and [1024.00], both included. *)
Theorem formatFileSize_rounds_to_hundredths exponential bytes :
  (1024 ≤ bytes < 1024 ^ 2 →
     formatFileSize exponential bytes =
       two_decimals (Z.to_N (hundredths bytes 1024)) +:+ " KB" ∧
     2 * 1024 * hundredths bytes 1024 ≤ 200 * bytes + 1024
       < 2 * 1024 * (hundredths bytes 1024 + 1) ∧
     100 ≤ hundredths bytes 1024 ≤ 102400) ∧
  (1024 ^ 2 ≤ bytes < 1024 ^ 3 →
     formatFileSize exponential bytes =
       two_decimals (Z.to_N (hundredths bytes (1024 ^ 2))) +:+ " MB" ∧
     2 * 1024 ^ 2 * hundredths bytes (1024 ^ 2) ≤ 200 * bytes + 1024 ^ 2
       < 2 * 1024 ^ 2 * (hundredths bytes (1024 ^ 2) + 1) ∧
     100 ≤ hundredths bytes (1024 ^ 2) ≤ 102400) ∧
  (1024 ^ 3 ≤ bytes < 10 ^ 21 * 1024 ^ 3 →
     formatFileSize exponential bytes =
       two_decimals (Z.to_N (hundredths bytes (1024 ^ 3))) +:+ " GB" ∧
     2 * 1024 ^ 3 * hundredths bytes (1024 ^ 3) ≤ 200 * bytes + 1024 ^ 3
       < 2 * 1024 ^ 3 * (hundredths bytes (1024 ^ 3) + 1) ∧
     100 ≤ hundredths bytes (1024 ^ 3)).
Proof.
  unfold formatFileSize.
  change (1024 ^ 2) with 1048576. change (1024 ^ 3) with 1073741824.
  change (10 ^ 21) with 1000000000000000000000.
  split_and!; intros Hrange.
  - pose proof (hundredths_nearest bytes 1024) as Hn.
    destruct (Z.eqb_spec bytes 0); [lia|].
    destruct (Z.ltb_spec bytes 1024); [lia|].
    destruct (Z.ltb_spec bytes 1048576); [|lia].
    rewrite toFixed2_digits
      by (try change (10 ^ 21) with 1000000000000000000000; lia).
    split_and!; [done|lia|lia|nia|nia].
  - pose proof (hundredths_nearest bytes 1048576) as Hn.
    destruct (Z.eqb_spec bytes 0); [lia|].
    destruct (Z.ltb_spec bytes 1024); [lia|].
    destruct (Z.ltb_spec bytes 1048576); [lia|].
    destruct (Z.ltb_spec bytes 1073741824); [|lia].
    rewrite toFixed2_digits
      by (try change (10 ^ 21) with 1000000000000000000000; lia).
    split_and!; [done|lia|lia|nia|nia].
  - pose proof (hundredths_nearest bytes 1073741824) as Hn.
    destruct (Z.eqb_spec bytes 0); [lia|].
    destruct (Z.ltb_spec bytes 1024); [lia|].
    destruct (Z.ltb_spec bytes 1048576); [lia|].
    destruct (Z.ltb_spec bytes 1073741824); [lia|].
    rewrite toFixed2_digits
      by (try change (10 ^ 21) with 1000000000000000000000; lia).
    split_and!; [done|lia|lia|nia].
Qed.

Lemma formatFileSize_rounds_to_hundredths_witness :
  1024 ≤ 1536 < 1024 ^ 2 ∧
  hundredths 1536 1024 = 150 ∧
  formatFileSize (λ _ _, "") 1536 = "1.50 KB".
Proof.
  assert (1024 ≤ 1536 < 1024 ^ 2) as Hrange by (by vm_compute).
  split; [exact Hrange|]. split; [reflexivity|].
  destruct (formatFileSize_rounds_to_hundredths (λ _ _, "") 1536) as (HKB & _ & _).
  destruct (HKB Hrange) as (-> & _). by vm_compute.
Defined.

(** X13. Rounding can carry the number shown up to the next unit while
    the unit stays: every size from 1048571 bytes up to one byte short of
    [1024^2] is shown as ["1024.00 KB"], and every size from 1073736582
    bytes up to one byte short of [1024^3] as ["1024.00 MB"]. *)
Theorem formatFileSize_shows_1024_of_the_smaller_unit exponential bytes :
  (1048571 ≤ bytes < 1024 ^ 2 → formatFileSize exponential bytes = "1024.00 KB") ∧
  (1073736582 ≤ bytes < 1024 ^ 3 → formatFileSize exponential bytes = "1024.00 MB").
Proof.
  unfold formatFileSize.
  change (1024 ^ 2) with 1048576. change (1024 ^ 3) with 1073741824.
  split; intros Hrange.
  - pose proof (hundredths_nearest bytes 1024) as Hn.
    destruct (Z.eqb_spec bytes 0); [lia|].
    destruct (Z.ltb_spec bytes 1024); [lia|].
    destruct (Z.ltb_spec bytes 1048576); [|lia].
    rewrite toFixed2_digits
      by (try change (10 ^ 21) with 1000000000000000000000; lia).
    replace (hundredths bytes 1024) with 102400 by lia. by vm_compute.
  - pose proof (hundredths_nearest bytes 1048576) as Hn.
    destruct (Z.eqb_spec bytes 0); [lia|].
    destruct (Z.ltb_spec bytes 1024); [lia|].
    destruct (Z.ltb_spec bytes 1048576); [lia|].
    destruct (Z.ltb_spec bytes 1073741824); [|lia].
    rewrite toFixed2_digits
      by (try change (10 ^ 21) with 1000000000000000000000; lia).
    replace (hundredths bytes 1048576) with 102400 by lia. by vm_compute.
Qed.

Lemma formatFileSize_shows_1024_of_the_smaller_unit_witness :
  1048571 ≤ 1048571 < 1024 ^ 2 ∧
  formatFileSize (λ _ _, "") 1048571 = "1024.00 KB" ∧
  formatFileSize (λ _ _, "") 1048570 = "1023.99 KB".
Proof.
  assert (1048571 ≤ 1048571 < 1024 ^ 2) as Hrange by (by vm_compute).
  split; [exact Hrange|]. split; [|by vm_compute].
  destruct (formatFileSize_shows_1024_of_the_smaller_unit (λ _ _, "") 1048571) as [HKB _].
  exact (HKB Hrange).
Defined.
